(** * Syncify: the playlist reader, the search filter and the ranking routine

    A shallow embedding of [syncify.py].  The three functions with logic of
    their own are modelled:

    - [get_spotify_tracks] reads the tracks of one playlist page;
    - [get_youtube_music_recommendations] turns the first ten search hits for
      a track into candidate records, skipping fuzzy matches of the track;
    - [filter_and_get_top_recommendations] counts the candidates by a
      normalized key, sorts the counters and recovers one record per key.

    Python dictionaries with a fixed set of keys are records; a key that may
    be absent is a field of type [option].  Exceptions are values of [exn]
    carried by the [result] monad.  Strings are Rocq strings and [lower]
    lowercases the ASCII letters, so the model speaks about ASCII titles and
    artist names. *)

From Stdlib Require Import Ascii String.
From stdpp Require Import gmap strings list sorting.

Local Open Scope stdpp_scope.

(** ** Exceptions *)

Inductive exn : Type :=
  | ValueError
  | KeyError (key : string)
  | IndexError.

Inductive result (A : Type) : Type :=
  | Ok (a : A)
  | Raise (e : exn).

Arguments Ok {A} a.
Arguments Raise {A} e.

Global Instance result_ret : MRet result := λ A a, Ok a.

Global Instance result_bind : MBind result := λ A B f m,
  match m with
  | Ok a => f a
  | Raise e => Raise e
  end.

(** [for_each l body s] is the loop [for x in l: s = body(s, x)]; an
    exception raised by the body leaves the loop. *)
Fixpoint for_each {A S : Type} (l : list A) (body : S → A → result S) (s : S)
  : result S :=
  match l with
  | [] => Ok s
  | x :: l' => s' ← body s x; for_each l' body s'
  end.

(** ** Strings *)

Definition lower_ascii (c : ascii) : ascii :=
  let n := nat_of_ascii c in
  if (65 <=? n) && (n <=? 90) then ascii_of_nat (n + 32) else c.

(** [str.lower()] *)
Fixpoint lower (s : string) : string :=
  match s with
  | EmptyString => EmptyString
  | String c s' => String (lower_ascii c) (lower s')
  end.

(** [str.split(sep)] for a separator that is not empty: the occurrences of
    [sep] are found from the left and do not overlap.  [skip] counts the
    characters of a separator that was found and is still to be passed over;
    [cur] is the part read so far. *)
Fixpoint split_go (sep : string) (skip : nat) (cur : string) (s : string)
  : list string :=
  match s with
  | EmptyString => [cur]
  | String c s' =>
      match skip with
      | S k => split_go sep k cur s'
      | O =>
          if String.prefix sep s
          then cur :: split_go sep (String.length sep - 1) "" s'
          else split_go sep 0 (cur +:+ String c "") s'
      end
  end.

Definition split (sep s : string) : list string := split_go sep 0 "" s.

(** The separator of the key format. *)
Definition BY : string := " by ".

(** ** Data model *)

(** An element of [song_list]: [{'name', 'artist', 'id'}]. *)
Record Track : Type := mkTrack {
  track_name : string;
  track_artist : string;
  track_id : string
}.

(** An element of [recommendations]; [rec_thumbnail] may be [None]. *)
Record Recommendation : Type := mkRec {
  rec_title : string;
  rec_artist : string;
  rec_album : string;
  rec_thumbnail : option string;
  rec_views : string;
  rec_spotify_url : string
}.

Global Instance Track_eq_dec : EqDecision Track.
Proof. solve_decision. Defined.

Global Instance Recommendation_eq_dec : EqDecision Recommendation.
Proof. solve_decision. Defined.

(** ** [filter_and_get_top_recommendations] *)

(** [f"{track['name'].lower()} by {track['artist'].lower()}"] *)
Definition track_key (track : Track) : string :=
  lower (track_name track) +:+ BY +:+ lower (track_artist track).

(** [f"{rec['title'].lower()} by {rec['artist'].lower()}"] *)
Definition rec_key (rec : Recommendation) : string :=
  lower (rec_title rec) +:+ BY +:+ lower (rec_artist rec).

Definition playlist_songs (spotify_tracks : list Track) : gset string :=
  list_to_set (track_key <$> spotify_tracks).

(** The counter is a [defaultdict(int)]: a dictionary that keeps its keys in
    the order of their first insertion.  [incr k d] is [d[k] += 1]. *)
Fixpoint incr (k : string) (d : list (string * nat)) : list (string * nat) :=
  match d with
  | [] => [(k, 1)]
  | (k', n) :: d' =>
      if decide (k = k') then (k', S n) :: d' else (k', n) :: incr k d'
  end.

Definition count_step (seen : gset string) (d : list (string * nat))
    (rec : Recommendation) : list (string * nat) :=
  let rec_key := rec_key rec in
  if decide (rec_key ∉ seen) then incr rec_key d else d.

Definition recommendation_count (seen : gset string)
    (all_recommendations : list Recommendation) : list (string * nat) :=
  foldl (count_step seen) [] all_recommendations.

(** [sorted(items, key=lambda x: x[1], reverse=True)]: a stable sort by
    decreasing count; items of equal count keep their order.  The head of the
    list is inserted in front of the items that do not have a greater count. *)
Fixpoint insert_desc (x : string * nat) (l : list (string * nat))
  : list (string * nat) :=
  match l with
  | [] => [x]
  | y :: l' => if x.2 <? y.2 then y :: insert_desc x l' else x :: y :: l'
  end.

Fixpoint sorted_desc (l : list (string * nat)) : list (string * nat) :=
  match l with
  | [] => []
  | x :: l' => insert_desc x (sorted_desc l')
  end.

Definition top_recommendations (spotify_tracks : list Track)
    (all_recommendations : list Recommendation) : list (string * nat) :=
  take 10 (sorted_desc
    (recommendation_count (playlist_songs spotify_tracks) all_recommendations)).

(** [next((rec for rec in all_recommendations if ...), None)] *)
Definition next_match (all_recommendations : list Recommendation)
    (song_title song_artist : string) : option Recommendation :=
  List.find (λ rec, bool_decide (lower (rec_title rec) = song_title)
                    && bool_decide (lower (rec_artist rec) = song_artist))
    all_recommendations.

(** The body of the last loop.  Unpacking the parts of the key into two
    names raises [ValueError] unless there are exactly two parts.  A record
    is a dictionary with six keys, so a record that was found is true. *)
Definition final_step (all_recommendations : list Recommendation)
    (final_recommendations : list Recommendation) (item : string * nat)
  : result (list Recommendation) :=
  match split BY item.1 with
  | [song_title; song_artist] =>
      match next_match all_recommendations song_title song_artist with
      | Some rec_info => Ok (final_recommendations ++ [rec_info])
      | None => Ok final_recommendations
      end
  | _ => Raise ValueError
  end.

Definition filter_and_get_top_recommendations (spotify_tracks : list Track)
    (all_recommendations : list Recommendation)
  : result (list Recommendation) :=
  for_each (top_recommendations spotify_tracks all_recommendations)
    (final_step all_recommendations) [].

(** ** [get_spotify_tracks] *)

(** The playlist page of the service, as far as the code reads it.  A field
    of type [option] is a key that may be absent; for ['track'] the value
    [None] also stands for a null track, which [item.get('track')] does not
    tell apart from an absent one. *)
Record ArtistObj : Type := mkArtistObj {
  artist_obj_name : option string
}.

Record TrackObj : Type := mkTrackObj {
  obj_name : option string;
  obj_artists : option (list ArtistObj);
  obj_id : option string
}.

Record Item : Type := mkItem {
  item_track : option TrackObj
}.

Record PlaylistPage : Type := mkPage {
  page_items : option (list Item)
}.

(** [d[k]] on a key that may be absent. *)
Definition getitem {A : Type} (k : string) (field : option A) : result A :=
  match field with
  | Some v => Ok v
  | None => Raise (KeyError k)
  end.

(** [l[0]] *)
Definition first_item {A : Type} (l : list A) : result A :=
  match l with
  | x :: _ => Ok x
  | [] => Raise IndexError
  end.

Definition spotify_step (song_list : list Track) (item : Item)
  : result (list Track) :=
  match item_track item with
  | None => Ok song_list
  | Some track =>
      let song_name := default "Unknown Song" (obj_name track) in
      let artist_name :=
        match obj_artists track with
        | Some (a :: _) => default "Unknown Artist" (artist_obj_name a)
        | _ => "Unknown Artist"
        end in
      id ← getitem "id" (obj_id track);
      Ok (song_list ++ [mkTrack song_name artist_name id])
  end.

(** [sp] is the [playlist_tracks] method of the client. *)
Definition get_spotify_tracks (playlist_id : string)
    (sp : string → PlaylistPage) : result (list Track) :=
  let results := sp playlist_id in
  let tracks := default [] (page_items results) in
  match tracks with
  | [] => Ok []
  | _ => for_each tracks spotify_step []
  end.

(** ** [get_youtube_music_recommendations] *)

(** A search hit.  The title is always there; the other keys may be absent.
    An album is a dictionary whose ['name'] may be absent. *)
Record SearchResult : Type := mkResult {
  res_title : string;
  res_artists : option (list string);
  res_thumbnails : option (list string);
  res_album : option (option string);
  res_views : option string
}.

Section Search.

(** The search call of the music service and the similarity ratio of the
    fuzzy matching library are external. *)
Variable ytmusic_search : string → list SearchResult.
Variable fuzz_ratio : string → string → Z.

(** The test of the [continue] statement. *)
Definition fuzzy_match (song_name artist_name title artist : string) : bool :=
  bool_decide (90 < fuzz_ratio (lower title) (lower song_name))%Z
  && bool_decide (90 < fuzz_ratio (lower artist) (lower artist_name))%Z.

(** [result.get('artists', [{'name': 'Unknown Artist'}])[0]['name']] *)
Definition result_artist (hit : SearchResult) : result string :=
  match res_artists hit with
  | None => Ok "Unknown Artist"
  | Some artists => first_item artists
  end.

(** [result.get('thumbnails', [{'url': None}])[0]['url']] *)
Definition result_thumbnail (hit : SearchResult) : result (option string) :=
  match res_thumbnails hit with
  | None => Ok None
  | Some thumbnails => url ← first_item thumbnails; Ok (Some url)
  end.

(** The body of the loop; [hit] is the variable [result] of the source. *)
Definition youtube_step (song_name artist_name track_id : string)
    (recommendations : list Recommendation) (hit : SearchResult)
  : result (list Recommendation) :=
  artist ← result_artist hit;
  if fuzzy_match song_name artist_name (res_title hit) artist
  then Ok recommendations
  else
    thumbnail ← result_thumbnail hit;
    let spotify_url := "https://open.spotify.com/track/" +:+ track_id in
    Ok (recommendations ++ [
      {| rec_title := res_title hit;
         rec_artist := artist;
         rec_album := default "N/A" (default None (res_album hit));
         rec_thumbnail := thumbnail;
         rec_views := default "0" (res_views hit);
         rec_spotify_url := spotify_url |} ]).

Definition get_youtube_music_recommendations
    (song_name artist_name track_id : string) : result (list Recommendation) :=
  let search_results := ytmusic_search (song_name +:+ " " +:+ artist_name) in
  match search_results with
  | [] => Ok []
  | _ =>
      for_each (take 10 search_results)
        (youtube_step song_name artist_name track_id) []
  end.

End Search.

(** ** The request handlers *)

(** [l[-1]] *)
Definition last_item {A : Type} (l : list A) : result A :=
  match last l with
  | Some x => Ok x
  | None => Raise IndexError
  end.

(** [playlist_link.split("/")[-1].split("?")[0]] *)
Definition playlist_id_of_link (playlist_link : string) : result string :=
  last_part ← last_item (split "/" playlist_link);
  first_item (split "?" last_part).

(** The token dictionary of the authorization library, as far as the code
    reads it. *)
Record TokenInfo : Type := mkToken {
  access_token : option string
}.

(** What a handler returns: a redirect, or the page [index.html] rendered
    with the template variables [error] and [recommendations], each of which
    may be left out. *)
Inductive Response : Type :=
  | Redirect (url : string)
  | RenderIndex (error : option string)
      (recommendations : option (list Recommendation)).

(** What the handlers call outside of this file: the authorization library
    ([sp_oauth]), the client of the playlist service built from an access
    token, the search of the music service and the similarity ratio.
    [str_exception] is [str(e)]; the messages of the exceptions are not
    modelled. *)
Record Services : Type := mkServices {
  get_authorize_url : result string;
  get_access_token : string → option TokenInfo;
  spotify_client : string → string → PlaylistPage;
  ytmusic_search : string → list SearchResult;
  fuzz_ratio : string → string → Z;
  str_exception : exn → string
}.

(** [if x:] for a string that may be [None]. *)
Definition truthy (x : option string) : option string :=
  match x with
  | Some EmptyString => None
  | _ => x
  end.

(** The page with an error message. *)
Definition render_error (message : string) : Response :=
  RenderIndex (Some message) None.

(** The loop of [callback] that fills [all_recommendations]: one search for
    each track, in the order of the playlist. *)
Definition extend_step (services : Services)
    (all_recommendations : list Recommendation) (track : Track)
  : result (list Recommendation) :=
  let song_name := track_name track in
  let artist_name := track_artist track in
  let track_id := track_id track in
  youtube_recommendations ←
    get_youtube_music_recommendations (ytmusic_search services)
      (fuzz_ratio services) song_name artist_name track_id;
  Ok (all_recommendations ++ youtube_recommendations).

Definition gather_recommendations (services : Services)
    (spotify_tracks : list Track) : result (list Recommendation) :=
  for_each spotify_tracks (extend_step services) [].

(** The body of the [try] statement of [callback].  [session_link] is
    [session.get('playlist_link')] and [code] is [request.args.get('code')]. *)
Definition callback_try (services : Services)
    (session_link code : option string) : result Response :=
  match truthy session_link with
  | None => Ok (render_error "Playlist link not found in session.")
  | Some playlist_link =>
      match truthy code with
      | None => Ok (render_error "Authorization code not found.")
      | Some code =>
          match get_access_token services code with
          | None => Ok (render_error "Could not retrieve access token.")
          | Some token_info =>
              access_token ← getitem "access_token" (access_token token_info);
              let sp := spotify_client services access_token in
              SPOTIFY_PLAYLIST_ID ← playlist_id_of_link playlist_link;
              spotify_tracks ← get_spotify_tracks SPOTIFY_PLAYLIST_ID sp;
              match spotify_tracks with
              | [] => Ok (render_error "No tracks found in the playlist.")
              | _ =>
                  all_recommendations ←
                    gather_recommendations services spotify_tracks;
                  top_recommendations ←
                    filter_and_get_top_recommendations spotify_tracks
                      all_recommendations;
                  Ok (RenderIndex None (Some top_recommendations))
              end
          end
      end
  end.

(** [except Exception as e] *)
Definition handle_exception (services : Services) (r : result Response)
  : Response :=
  match r with
  | Ok response => response
  | Raise e => render_error ("Error: " +:+ str_exception services e)
  end.

Definition callback (services : Services) (session_link code : option string)
  : Response :=
  handle_exception services (callback_try services session_link code).

(** [index] returns its response and the value of
    [session['playlist_link']] after the request.  The link is stored before
    the authorization URL is asked for. *)
Definition index (services : Services) (method : string)
    (form_link session_link : option string) : Response * option string :=
  if decide (method = "POST") then
    match truthy form_link with
    | Some playlist_link =>
        (handle_exception services
           (auth_url ← get_authorize_url services; Ok (Redirect auth_url)),
         Some playlist_link)
    | None => (RenderIndex None None, session_link)
    end
  else (RenderIndex None None, session_link).

(** * Vocabulary of the statements *)

(** [occurrences k ks]: how often [k] occurs in [ks]. *)
Definition occurrences (k : string) (ks : list string) : nat :=
  length (filter (k =.) ks).

(** [first_index k ks]: the place of the first occurrence of [k] in [ks],
    as [ks.index(k)] gives it; [length ks] when there is none. *)
Fixpoint first_index (k : string) (ks : list string) : nat :=
  match ks with
  | [] => 0
  | x :: ks' => if decide (x = k) then 0 else S (first_index k ks')
  end.

(** After the candidates with keys [ks] were read, the counter [d] holds
    each key once, holds the keys of [ks] that are not in the playlist, gives
    each its number of occurrences, and lists them by first occurrence. *)
Record counter_inv (seen : gset string) (d : list (string * nat))
    (ks : list string) : Prop := {
  inv_NoDup : NoDup d.*1;
  inv_keys : ∀ k, k ∈ d.*1 ↔ k ∈ ks ∧ k ∉ seen;
  inv_count : ∀ k n, (k, n) ∈ d → n = occurrences k ks;
  inv_order : ∀ k1 k2,
    [k1; k2] `sublist_of` d.*1 → first_index k1 ks < first_index k2 ks
}.

(** The order of the sorted items: the count does not grow. *)
Definition count_ge (a b : string * nat) : Prop := b.2 ≤ a.2.

(** What the loop adds for one item of the sorted counter. *)
Definition recovered (all_recommendations : list Recommendation)
    (item : string * nat) : option Recommendation :=
  match split BY item.1 with
  | [song_title; song_artist] =>
      next_match all_recommendations song_title song_artist
  | _ => None
  end.

(** The key of the item unpacks into a title and an artist. *)
Definition two_parts (item : string * nat) : Prop :=
  length (split BY item.1) = 2.

Global Instance two_parts_dec (item : string * nat) : Decision (two_parts item).
Proof. unfold two_parts. apply _. Defined.

(** The keys of the candidates that are counted: those that are not keys of
    the playlist. *)
Definition counted_keys (spotify_tracks : list Track)
    (all_recommendations : list Recommendation) : list string :=
  filter (λ k, k ∉ playlist_songs spotify_tracks)
    (rec_key <$> all_recommendations).

(** The occurrence count of a key among the counted candidates. *)
Definition occurrence_count (spotify_tracks : list Track)
    (all_recommendations : list Recommendation) (k : string) : nat :=
  occurrences k (counted_keys spotify_tracks all_recommendations).

(** The keys that are counted, as a set. *)
Definition distinct_counted_keys (spotify_tracks : list Track)
    (all_recommendations : list Recommendation) : gset string :=
  list_to_set (counted_keys spotify_tracks all_recommendations).

(** A candidate whose key splits back into its lowercased title and
    artist. *)
Definition well_split (rec : Recommendation) : Prop :=
  split BY (rec_key rec) = [lower (rec_title rec); lower (rec_artist rec)].

Global Instance well_split_dec (rec : Recommendation) : Decision (well_split rec).
Proof. unfold well_split. apply _. Defined.

(** [s] holds [sep]. *)
Definition has_substring (sep s : string) : Prop :=
  ∃ x y, s = x +:+ sep +:+ y.

(** The first candidate of the list that has the key [k]. *)
Definition first_with_key (all_recommendations : list Recommendation)
    (k : string) : option Recommendation :=
  List.find (λ rec, bool_decide (rec_key rec = k)) all_recommendations.

(** A track of the song list read from a track of the playlist page: absent
    names are replaced, the id is the one of the page. *)
Definition reads_track (track : TrackObj) (t : Track) : Prop :=
  track_name t = default "Unknown Song" (obj_name track)
  ∧ track_artist t =
      match obj_artists track with
      | Some (a :: _) => default "Unknown Artist" (artist_obj_name a)
      | _ => "Unknown Artist"
      end
  ∧ obj_id track = Some (track_id t).

(** An item with a track that has no id. *)
Definition lacks_id (item : Item) : Prop :=
  ∃ track, item_track item = Some track ∧ obj_id track = None.

Global Instance lacks_id_dec (item : Item) : Decision (lacks_id item).
Proof.
  unfold lacks_id. destruct (item_track item) as [track|].
  - destruct (obj_id track) as [id|] eqn:Hid.
    + right. intros (? & [= <-] & ?). congruence.
    + left. by exists track.
  - right. by intros (? & ? & ?).
Defined.

(** A search hit that the loop passes over: its artist is read and both
    ratios are above 90. *)
Definition skipped (fuzz_ratio : string → string → Z)
    (song_name artist_name : string) (hit : SearchResult) : bool :=
  match result_artist hit with
  | Ok artist => fuzzy_match fuzz_ratio song_name artist_name (res_title hit) artist
  | Raise _ => false
  end.

(** A record that was made from a hit which the loop did not pass over. *)
Definition made_from (fuzz_ratio : string → string → Z)
    (song_name artist_name : string) (hits : list SearchResult)
    (rec : Recommendation) : Prop :=
  ∃ hit, hit ∈ hits
         ∧ rec_title rec = res_title hit
         ∧ result_artist hit = Ok (rec_artist rec)
         ∧ skipped fuzz_ratio song_name artist_name hit = false.

(** A hit on which the loop of the search filter raises [IndexError]: its
    list of artists is empty, or it is not passed over and its list of
    thumbnails is empty. *)
Definition fails_on (fuzz_ratio : string → string → Z)
    (song_name artist_name : string) (hit : SearchResult) : Prop :=
  res_artists hit = Some []
  ∨ (res_thumbnails hit = Some []
     ∧ skipped fuzz_ratio song_name artist_name hit = false).

(** The address of a track of the playlist service. *)
Definition track_url (track_id : string) : string :=
  "https://open.spotify.com/track/" +:+ track_id.

(** The record that the search filter makes from a hit for the track
    [track_id]. *)
Definition record_of (track_id : string) (hit : SearchResult)
    (rec : Recommendation) : Prop :=
  rec_title rec = res_title hit
  ∧ result_artist hit = Ok (rec_artist rec)
  ∧ result_thumbnail hit = Ok (rec_thumbnail rec)
  ∧ rec_album rec = default "N/A" (default None (res_album hit))
  ∧ rec_views rec = default "0" (res_views hit)
  ∧ rec_spotify_url rec = track_url track_id.

(** The hits that the search filter reads for a track and does not pass
    over. *)
Definition kept_hits (services : Services) (track : Track)
  : list SearchResult :=
  filter (λ hit, ¬ skipped (fuzz_ratio services) (track_name track)
                     (track_artist track) hit)
    (take 10 (ytmusic_search services
                (track_name track +:+ " " +:+ track_artist track))).

(** The first artist of a hit, ['Unknown Artist'] for a hit without the key
    ['artists']; none when the list of artists is empty. *)
Definition first_artist (hit : SearchResult) : option string :=
  match res_artists hit with
  | None => Some "Unknown Artist"
  | Some artists => head artists
  end.

(** A hit is a fuzzy match of the track: the ratio of its lowercased title
    and the lowercased song name is above 90, and so is the ratio of its
    lowercased first artist and the lowercased artist name. *)
Definition fuzzy_matches_track (fuzz_ratio : string → string → Z)
    (song_name artist_name : string) (hit : SearchResult) : Prop :=
  ∃ artist,
    first_artist hit = Some artist
    ∧ (90 < fuzz_ratio (lower (res_title hit)) (lower song_name))%Z
    ∧ (90 < fuzz_ratio (lower artist) (lower artist_name))%Z.

Global Instance fuzzy_matches_track_dec (fuzz_ratio : string → string → Z)
    (song_name artist_name : string) (hit : SearchResult) :
  Decision (fuzzy_matches_track fuzz_ratio song_name artist_name hit).
Proof.
  unfold fuzzy_matches_track. destruct (first_artist hit) as [artist|].
  - destruct (decide ((90 < fuzz_ratio (lower (res_title hit)) (lower song_name))%Z
                      ∧ (90 < fuzz_ratio (lower artist) (lower artist_name))%Z))
      as [Hboth|Hnot].
    + left. by exists artist.
    + right. intros (artist' & [= <-] & Hboth). by apply Hnot.
  - right. by intros (artist & ? & _).
Defined.

(** * Sample data *)

(** A playlist with one track, and candidates by title and artist. *)
Definition sample_track : Track := mkTrack "Song" "Artist" "4uLU6hMCjMI75M1A2tKUQC".

Definition candidate (title artist : string) : Recommendation :=
  mkRec title artist "N/A" None "0"
    "https://open.spotify.com/track/4uLU6hMCjMI75M1A2tKUQC".

(** The example of the specification: keys counted 3, 5 and 1 times. *)
Definition song_A : Recommendation := candidate "Alpha" "Ann".
Definition song_B : Recommendation := candidate "Beta" "Bob".
Definition song_C : Recommendation := candidate "Gamma" "Cy".

Definition counts_3_5_1 : list Recommendation :=
  [song_A; song_B; song_C; song_B; song_A; song_B; song_B; song_A; song_B].

(** Twelve candidates with twelve keys. *)
Definition twelve_candidates : list Recommendation :=
  (λ title, candidate title "Band")
    <$> ["One"; "Two"; "Three"; "Four"; "Five"; "Six"; "Seven"; "Eight";
         "Nine"; "Ten"; "Eleven"; "Twelve"].

(** Candidates whose titles hold the separator, or its first three
    characters at the end. *)
Definition stand_by_me : Recommendation := candidate "Stand By Me" "Ben E. King".

Definition drive_by : Recommendation := candidate "Drive By" "Train".

(** Two candidates with one key that differ in thumbnail and views. *)
Definition intro_first : Recommendation :=
  mkRec "Intro" "Band" "First Album" (Some "https://img.example/1.jpg") "1.2M"
    "https://open.spotify.com/track/4uLU6hMCjMI75M1A2tKUQC".

Definition intro_second : Recommendation :=
  mkRec "INTRO" "band" "Live" None "300K"
    "https://open.spotify.com/track/4uLU6hMCjMI75M1A2tKUQC".

Definition sample_page (playlist_id : string) : PlaylistPage :=
  mkPage (Some [
    mkItem None;
    mkItem (Some (mkTrackObj None (Some []) (Some "id1")));
    mkItem (Some (mkTrackObj (Some "Song")
                    (Some [mkArtistObj (Some "Artist"); mkArtistObj None])
                    (Some "id2")));
    mkItem (Some (mkTrackObj (Some "Tune") (Some [mkArtistObj None]) None))
  ]).

Definition sample_page_with_ids (playlist_id : string) : PlaylistPage :=
  mkPage (Some [
    mkItem None;
    mkItem (Some (mkTrackObj None (Some []) (Some "id1")));
    mkItem (Some (mkTrackObj (Some "Song")
                    (Some [mkArtistObj (Some "Artist"); mkArtistObj None])
                    (Some "id2")));
    mkItem (Some (mkTrackObj (Some "Tune") (Some [mkArtistObj None])
                    (Some "id3")))
  ]).

(** A stand-in for the similarity ratio: 100 for equal strings, 0 for
    others. *)
Definition ratio_by_equality (s1 s2 : string) : Z :=
  if decide (s1 = s2) then 100%Z else 0%Z.

Definition sample_hit (title artist : string) : SearchResult :=
  mkResult title (Some [artist]) None None None.

(** Twelve hits; the second is the track itself. *)
Definition sample_search (query : string) : list SearchResult :=
  [sample_hit "Song (Live)" "Artist"; sample_hit "SONG" "artist";
   sample_hit "Alpha" "Ann"; sample_hit "Beta" "Bob"; sample_hit "Gamma" "Cy";
   sample_hit "Delta" "Dee"; sample_hit "Epsilon" "Eve"; sample_hit "Zeta" "Zed";
   sample_hit "Eta" "Ed"; sample_hit "Theta" "Ted"; sample_hit "Iota" "Io";
   sample_hit "Kappa" "Kay"].

(** A stand-in for [str(e)]. *)
Definition sample_str (e : exn) : string :=
  match e with
  | ValueError => "too many values to unpack (expected 2)"
  | KeyError key => "'" +:+ key +:+ "'"
  | IndexError => "list index out of range"
  end.

(** Services that answer every request in one way: one access token, one
    playlist page, the twelve hits for every query. *)
Definition sample_services (page : string → PlaylistPage) : Services :=
  {| get_authorize_url := Ok "https://accounts.spotify.com/authorize?client_id=1a2b";
     get_access_token := λ code, Some (mkToken (Some "BQD4kXo"));
     spotify_client := λ token, page;
     ytmusic_search := sample_search;
     fuzz_ratio := ratio_by_equality;
     str_exception := sample_str |}.

Definition sample_link : string :=
  "https://open.spotify.com/playlist/37i9dQZF1DXcBWIGoYBM5M?si=0a1b2c".

(** The recommendations for [sample_page_with_ids]: the hits of the search
    for its first track, without the one that has the key of its second
    track. *)
Definition sample_top : list Recommendation :=
  (λ hit, mkRec hit.1 hit.2 "N/A" None "0" (track_url "id1"))
    <$> [("Song (Live)", "Artist"); ("Alpha", "Ann"); ("Beta", "Bob");
         ("Gamma", "Cy"); ("Delta", "Dee"); ("Epsilon", "Eve");
         ("Zeta", "Zed"); ("Eta", "Ed"); ("Theta", "Ted")].

(** A search whose second hit has an empty list of artists. *)
Definition broken_search (query : string) : list SearchResult :=
  [sample_hit "Alpha" "Ann"; mkResult "Beta" (Some []) None None None;
   sample_hit "Gamma" "Cy"].

(** A search whose hits have albums, thumbnails and view counts. *)
Definition full_search (query : string) : list SearchResult :=
  [mkResult "Song" (Some ["Artist"; "Guest"]) (Some []) None None;
   mkResult "Alpha" (Some ["Ann"; "Guest"])
     (Some ["https://img.example/a60.jpg"; "https://img.example/a120.jpg"])
     (Some (Some "First Album")) (Some "1.2M");
   mkResult "Beta" None None (Some None) None].

(** A track that is among the twelve hits, and the candidates that the
    hits give for it. *)
Definition gamma_track : Track := mkTrack "Gamma" "Cy" "4uLU6hMCjMI75M1A2tKUQC".

Definition gamma_candidates : list Recommendation :=
  [candidate "Song (Live)" "Artist"; candidate "SONG" "artist"; song_A; song_B;
   candidate "Delta" "Dee"; candidate "Epsilon" "Eve"; candidate "Zeta" "Zed";
   candidate "Eta" "Ed"; candidate "Theta" "Ted"].

(** A stand-in for the similarity ratio with values on both sides of 90. *)
Definition ratio_table (s1 s2 : string) : Z :=
  if decide (s1 = s2) then 100%Z
  else if decide (s1 = "song (live)" ∧ s2 = "song") then 90%Z
  else if decide (s1 = "songs" ∧ s2 = "song") then 91%Z
  else if decide (s1 = "the artist" ∧ s2 = "artist") then 95%Z
  else 12%Z.

(** Hits around the track "Song" by "Artist": a title at ratio 90, a title
    at 91 with an artist at 95, the track itself in other letter case, the
    title with another artist, the artist with another title, and the title
    without artists. *)
Definition boundary_search (query : string) : list SearchResult :=
  [sample_hit "Song (Live)" "Artist"; sample_hit "Songs" "The Artist";
   sample_hit "SONG" "artist"; sample_hit "Song" "Ann";
   sample_hit "Alpha" "Artist"; mkResult "Song" None None None None].

Definition boundary_candidates : list Recommendation :=
  [candidate "Song (Live)" "Artist"; candidate "Song" "Ann";
   candidate "Alpha" "Artist"; candidate "Song" "Unknown Artist"].

(** * Tactics *)

(** A decidable statement about sample data is settled by evaluation. *)
Ltac by_evaluation :=
  lazymatch goal with
  | |- ?P => apply (bool_decide_unpack P); vm_compute; exact I
  end.

(** * The model on sample data *)

Example lower_title : lower "Stand By Me (2012)" = "stand by me (2012)".
Proof. reflexivity. Qed.

Example split_title_artist : split BY "alpha by ann" = ["alpha"; "ann"].
Proof. reflexivity. Qed.

Example split_three_parts :
  split BY "stand by me by ben e. king" = ["stand"; "me"; "ben e. king"].
Proof. reflexivity. Qed.

Example split_no_overlap : split BY "drive by by train" = ["drive"; "by train"].
Proof. reflexivity. Qed.

Example split_empty_part : split BY "a by  by b" = ["a"; ""; "b"].
Proof. reflexivity. Qed.

Example split_no_separator : split BY "alpha" = ["alpha"].
Proof. reflexivity. Qed.

Example counter_of_counts_3_5_1 :
  recommendation_count (playlist_songs [sample_track]) counts_3_5_1
  = [("alpha by ann", 3); ("beta by bob", 5); ("gamma by cy", 1)].
Proof. vm_compute. reflexivity. Qed.

Example ranking_of_counts_3_5_1 :
  filter_and_get_top_recommendations [sample_track] counts_3_5_1
  = Ok [song_B; song_A; song_C].
Proof. vm_compute. reflexivity. Qed.

(** * Facts about strings *)

Lemma append_nil_l (s : string) : "" +:+ s = s.
Proof. reflexivity. Qed.

Lemma append_cons (c : ascii) (s1 s2 : string) :
  String c s1 +:+ s2 = String c (s1 +:+ s2).
Proof. reflexivity. Qed.

Lemma append_nil_r (s : string) : s +:+ "" = s.
Proof. induction s as [|c s IH]; [done|]. by rewrite append_cons, IH. Qed.

Lemma append_assoc (s1 s2 s3 : string) :
  (s1 +:+ s2) +:+ s3 = s1 +:+ s2 +:+ s3.
Proof.
  induction s1 as [|c s1 IH]; [done|]. by rewrite !append_cons, IH.
Qed.

Lemma length_append (s1 s2 : string) :
  String.length (s1 +:+ s2) = String.length s1 + String.length s2.
Proof.
  induction s1 as [|c s1 IH]; [done|]. rewrite append_cons. simpl. by rewrite IH.
Qed.

Lemma prefix_true (s1 s2 : string) :
  String.prefix s1 s2 = true ↔ ∃ rest, s2 = s1 +:+ rest.
Proof.
  revert s2. induction s1 as [|c s1 IH]; intros s2.
  - split; [|by destruct s2]. intros _. by exists s2.
  - destruct s2 as [|c' s2]; simpl.
    + split; [done|]. by intros [rest Hrest].
    + destruct (ascii_dec c c') as [->|Hne].
      * rewrite IH. split; intros [rest Hrest]; exists rest.
        -- by rewrite append_cons, Hrest.
        -- rewrite append_cons in Hrest. by simplify_eq.
      * split; [done|]. intros [rest Hrest].
        rewrite append_cons in Hrest. by simplify_eq.
Qed.

(** Two ways of cutting one string: the shorter head is a head of the
    longer one. *)
Lemma append_eq_inv (x y rest1 rest2 : string) :
  x +:+ rest1 = y +:+ rest2 →
  String.length x ≤ String.length y →
  ∃ z, y = x +:+ z ∧ rest1 = z +:+ rest2.
Proof.
  revert y. induction x as [|c x IH]; intros y Heq Hlen.
  - exists y. by rewrite !append_nil_l in *.
  - destruct y as [|c' y]; simpl in Hlen; [lia|].
    rewrite !append_cons in Heq. simplify_eq.
    destruct (IH y) as (z & -> & ->); [done|lia|].
    by exists z.
Qed.

(** ** [split] *)

Section SplitFacts.

Variable sep : string.
Hypothesis sep_nonempty : sep ≠ "".

Lemma split_go_skip (x cur rest : string) :
  split_go sep (String.length x) cur (x +:+ rest) = split_go sep 0 cur rest.
Proof.
  induction x as [|c x IH]; [done|]. rewrite append_cons. simpl. apply IH.
Qed.

(** The two equations of [split_go] at [skip = 0]. *)
Lemma split_go_sep (cur rest : string) :
  split_go sep 0 cur (sep +:+ rest) = cur :: split_go sep 0 "" rest.
Proof.
  assert (String.prefix sep (sep +:+ rest) = true) as Hp.
  { apply prefix_true. by exists rest. }
  destruct sep as [|c sep'] eqn:Hsep; [done|].
  rewrite append_cons in *. rewrite <-Hsep in *.
  cbn [split_go]. rewrite Hp. f_equal.
  replace (String.length sep - 1) with (String.length sep')
    by (rewrite Hsep; simpl; lia).
  apply split_go_skip.
Qed.

Lemma split_go_other (cur : string) (c : ascii) (s : string) :
  String.prefix sep (String c s) = false →
  split_go sep 0 cur (String c s) = split_go sep 0 (cur +:+ String c "") s.
Proof. intros Hp. simpl split_go. simpl in Hp. by rewrite Hp. Qed.

Lemma split_go_nonempty (k : nat) (cur s : string) :
  split_go sep k cur s ≠ [].
Proof.
  revert k cur. induction s as [|c s IH]; intros k cur; [done|].
  destruct k as [|k]; cbn [split_go]; [|apply IH].
  destruct (String.prefix sep (String c s)); [done|apply IH].
Qed.

Lemma concat_cons (x : string) (l : list string) :
  l ≠ [] → String.concat sep (x :: l) = x +:+ sep +:+ String.concat sep l.
Proof. by destruct l. Qed.

(** Induction on the length of the string that is split: a separator at
    the head is passed over as a whole. *)
Lemma split_ind (P : string → Prop) :
  P "" →
  (∀ rest, P rest → P (sep +:+ rest)) →
  (∀ c s, String.prefix sep (String c s) = false → P s → P (String c s)) →
  ∀ s, P s.
Proof.
  intros Hnil Hsep Hother s.
  assert (∀ n s, String.length s ≤ n → P s) as Hn; [|by eapply Hn].
  clear s. induction n as [|n IH]; intros s Hlen.
  - destruct s; [done|simpl in Hlen; lia].
  - destruct s as [|c s]; [done|].
    destruct (String.prefix sep (String c s)) eqn:Hp.
    + apply prefix_true in Hp as [rest Hrest]. rewrite Hrest.
      apply Hsep, IH.
      apply (f_equal String.length) in Hrest.
      rewrite length_append in Hrest. simpl in *.
      destruct sep; [done|simpl in *; lia].
    + apply Hother; [done|]. apply IH. simpl in Hlen. lia.
Qed.

(** Joining the parts with the separator gives the string back. *)
Lemma split_go_join (cur s : string) :
  String.concat sep (split_go sep 0 cur s) = cur +:+ s.
Proof.
  revert cur. induction s as [|rest IH|c s Hp IH] using split_ind;
    intros cur.
  - simpl. by rewrite append_nil_r.
  - rewrite split_go_sep, concat_cons by apply split_go_nonempty.
    by rewrite IH.
  - rewrite split_go_other, IH by done. by rewrite append_assoc.
Qed.

Lemma split_join (s : string) : String.concat sep (split sep s) = s.
Proof. apply split_go_join. Qed.

Lemma split_go_length (cur s : string) :
  length (split_go sep 0 cur s) = length (split sep s).
Proof.
  unfold split. revert cur.
  induction s as [|rest IH|c s Hp IH] using split_ind; intros cur.
  - done.
  - by rewrite !split_go_sep.
  - rewrite !split_go_other by done.
    by rewrite (IH (cur +:+ String c "")), (IH ("" +:+ String c "")).
Qed.

(** The number of parts. *)
Lemma split_length_nil : length (split sep "") = 1.
Proof. done. Qed.

Lemma split_length_sep (rest : string) :
  length (split sep (sep +:+ rest)) = S (length (split sep rest)).
Proof. unfold split. by rewrite split_go_sep. Qed.

Lemma split_length_other (c : ascii) (s : string) :
  String.prefix sep (String c s) = false →
  length (split sep (String c s)) = length (split sep s).
Proof.
  intros Hp. unfold split at 1. rewrite split_go_other by done.
  apply split_go_length.
Qed.

Lemma split_length_pos (s : string) : 1 ≤ length (split sep s).
Proof.
  pose proof (split_go_nonempty 0 "" s) as Hne. unfold split.
  destruct (split_go sep 0 "" s); [done|simpl; lia].
Qed.

(** A character in front of a string does not take parts away. *)
Lemma split_length_cons_from (s : string) :
  (∀ x rest, s = x +:+ rest → String.length x ≤ String.length sep →
     length (split sep s) ≤ S (length (split sep rest))) →
  ∀ c, length (split sep s) ≤ length (split sep (String c s)).
Proof.
  intros Hcut c. destruct (String.prefix sep (String c s)) eqn:Hp.
  - apply prefix_true in Hp as [rest Hrest]. rewrite Hrest.
    rewrite split_length_sep.
    destruct sep as [|c' sep']; [done|].
    rewrite append_cons in Hrest. simplify_eq.
    apply (Hcut sep' rest); [done|simpl; lia].
  - by rewrite split_length_other.
Qed.

(** Cutting off a head that is no longer than the separator loses at most
    one part. *)
Lemma split_length_cut_le (n : nat) (s x rest : string) :
  String.length s ≤ n → s = x +:+ rest →
  String.length x ≤ String.length sep →
  length (split sep s) ≤ S (length (split sep rest)).
Proof.
  revert s x rest. induction n as [|n IH]; intros s x rest Hlen Hs Hx.
  { destruct s; [|simpl in Hlen; lia].
    destruct x; [|done]. rewrite append_nil_l in Hs. subst. simpl. lia. }
  assert (∀ z t, String.length (z +:+ t) ≤ n →
            length (split sep t) ≤ length (split sep (z +:+ t))) as Hsuffix.
  { induction z as [|a z IHz]; intros t Hzt; [done|].
    rewrite append_cons in *. simpl in Hzt.
    etrans; [apply IHz; lia|].
    apply split_length_cons_from. intros x' rest' Hx' Hlen'.
    apply (IH _ x'); [lia|done..]. }
  destruct x as [|c x].
  { rewrite append_nil_l in Hs. subst. lia. }
  rewrite append_cons in Hs. subst s. simpl in Hlen.
  rewrite length_append in Hlen.
  destruct (String.prefix sep (String c (x +:+ rest))) eqn:Hp.
  - apply prefix_true in Hp as [rest2 Hrest2]. rewrite Hrest2.
    rewrite split_length_sep. apply le_n_S.
    rewrite <-append_cons in Hrest2.
    apply append_eq_inv in Hrest2 as (z & _ & ->); [|done].
    apply Hsuffix. lia.
  - rewrite split_length_other by done.
    apply (IH _ x); [rewrite length_append; lia|done|simpl in Hx; lia].
Qed.

Lemma split_length_cons (c : ascii) (s : string) :
  length (split sep s) ≤ length (split sep (String c s)).
Proof.
  apply split_length_cons_from. intros x rest ??.
  by apply (split_length_cut_le (String.length s) s x).
Qed.

Lemma split_length_suffix (z t : string) :
  length (split sep t) ≤ length (split sep (z +:+ t)).
Proof.
  induction z as [|a z IH]; [done|].
  rewrite append_cons. etrans; [apply IH|apply split_length_cons].
Qed.

(** A string that holds the separator has two parts or more; a string
    that holds it twice, one occurrence after the other, has three. *)
Lemma split_length_once (x y : string) :
  2 ≤ length (split sep (x +:+ sep +:+ y)).
Proof.
  etrans; [|apply split_length_suffix]. rewrite split_length_sep.
  apply le_n_S, split_length_pos.
Qed.

Lemma split_length_twice (x y z : string) :
  3 ≤ length (split sep (x +:+ sep +:+ y +:+ sep +:+ z)).
Proof.
  etrans; [|apply split_length_suffix]. rewrite split_length_sep.
  apply le_n_S, split_length_once.
Qed.

End SplitFacts.

(** * Facts about the counter *)

Lemma occurrences_app (k : string) (l1 l2 : list string) :
  occurrences k (l1 ++ l2) = occurrences k l1 + occurrences k l2.
Proof. unfold occurrences. by rewrite filter_app, length_app. Qed.

Lemma occurrences_snoc_eq (k : string) (ks : list string) :
  occurrences k (ks ++ [k]) = S (occurrences k ks).
Proof.
  rewrite occurrences_app. unfold occurrences at 2.
  rewrite filter_cons_True by done. simpl. lia.
Qed.

Lemma occurrences_snoc_ne (k k' : string) (ks : list string) :
  k' ≠ k → occurrences k' (ks ++ [k]) = occurrences k' ks.
Proof.
  intros Hne. rewrite occurrences_app. unfold occurrences at 2.
  rewrite filter_cons_False by done. simpl. lia.
Qed.

Lemma occurrences_zero (k : string) (ks : list string) :
  k ∉ ks → occurrences k ks = 0.
Proof.
  intros Hk. unfold occurrences.
  induction ks as [|x ks IH]; [done|].
  rewrite not_elem_of_cons in Hk. destruct Hk as [Hne Hk].
  rewrite filter_cons_False by done. by apply IH.
Qed.

Lemma occurrences_pos (k : string) (ks : list string) :
  k ∈ ks → 0 < occurrences k ks.
Proof.
  intros Hk. apply list_elem_of_split in Hk as (l1 & l2 & ->).
  rewrite occurrences_app. unfold occurrences at 2.
  rewrite filter_cons_True by done. simpl. lia.
Qed.

Lemma occurrences_filter (P : string → Prop) `{!∀ k, Decision (P k)}
    (k : string) (ks : list string) :
  P k → occurrences k (filter P ks) = occurrences k ks.
Proof.
  intros HP. unfold occurrences. induction ks as [|x ks IH]; [done|].
  destruct (decide (k = x)) as [<-|Hne].
  - rewrite (filter_cons_True P) by done.
    rewrite !filter_cons_True by done. simpl. by rewrite IH.
  - rewrite (filter_cons_False (k =.) _ ks) by done. rewrite <-IH.
    destruct (decide (P x)).
    + rewrite (filter_cons_True P) by done. by rewrite filter_cons_False.
    + by rewrite (filter_cons_False P).
Qed.

Lemma first_index_lt (k : string) (ks : list string) :
  k ∈ ks → first_index k ks < length ks.
Proof.
  induction ks as [|x ks IH]; [by rewrite elem_of_nil|].
  rewrite elem_of_cons. intros Hk. simpl.
  destruct (decide (x = k)); [lia|]. destruct Hk; [done|].
  apply Nat.succ_lt_mono in IH; [|done]. lia.
Qed.

Lemma first_index_app_l (k : string) (l1 l2 : list string) :
  k ∈ l1 → first_index k (l1 ++ l2) = first_index k l1.
Proof.
  induction l1 as [|x l1 IH]; [by rewrite elem_of_nil|].
  rewrite elem_of_cons. intros Hk. simpl.
  destruct (decide (x = k)); [done|]. destruct Hk; [done|]. by rewrite IH.
Qed.

Lemma first_index_app_r (k : string) (l1 l2 : list string) :
  k ∉ l1 → first_index k (l1 ++ l2) = length l1 + first_index k l2.
Proof.
  induction l1 as [|x l1 IH]; [done|].
  rewrite not_elem_of_cons. intros [Hne Hk]. simpl.
  destruct (decide (x = k)); [done|]. by rewrite IH.
Qed.

(** ** [incr] *)

Lemma incr_keys_in (k : string) (d : list (string * nat)) :
  k ∈ d.*1 → (incr k d).*1 = d.*1.
Proof.
  induction d as [|[k' n] d IH]; [by rewrite elem_of_nil|].
  rewrite fmap_cons, elem_of_cons. intros Hk. simpl.
  destruct (decide (k = k')); [done|]. destruct Hk; [done|].
  rewrite fmap_cons. simpl. by rewrite IH.
Qed.

Lemma incr_keys_notin (k : string) (d : list (string * nat)) :
  k ∉ d.*1 → incr k d = d ++ [(k, 1)].
Proof.
  induction d as [|[k' n] d IH]; [done|].
  rewrite fmap_cons, not_elem_of_cons. intros [Hne Hk]. simpl.
  destruct (decide (k = k')); [done|]. by rewrite IH.
Qed.

Lemma elem_of_incr (k k' : string) (n : nat) (d : list (string * nat)) :
  NoDup d.*1 → (k', n) ∈ incr k d →
  (k' ≠ k ∧ (k', n) ∈ d)
  ∨ (k' = k ∧ ((∃ m, n = S m ∧ (k, m) ∈ d) ∨ (n = 1 ∧ k ∉ d.*1))).
Proof.
  induction d as [|[k0 n0] d IH].
  - intros _. simpl. rewrite list_elem_of_singleton. intros [= -> ->].
    right. split; [done|]. right. split; [done|]. apply not_elem_of_nil.
  - rewrite fmap_cons, NoDup_cons. intros [Hk0 Hnd]. simpl.
    destruct (decide (k = k0)) as [->|Hne].
    + rewrite elem_of_cons. intros [[= -> ->]|Hin].
      * right. split; [done|]. left. exists n0. split; [done|]. left.
      * left. split; [|by right].
        intros ->. apply Hk0. apply list_elem_of_fmap. by exists (k0, n).
    + rewrite elem_of_cons. intros [[= -> ->]|Hin].
      * left. split; [done|left].
      * destruct (IH Hnd Hin) as [[? ?]|[-> [(m & -> & Hm)|[-> Hk]]]].
        -- left. split; [done|by right].
        -- right. split; [done|]. left. exists m. split; [done|by right].
        -- right. split; [done|]. right. split; [done|].
           by apply not_elem_of_cons.
Qed.

(** ** The invariant of the counting loop *)

Lemma sublist_pair_snoc {A : Type} (k1 k2 k : A) (l : list A) :
  [k1; k2] `sublist_of` l ++ [k] →
  [k1; k2] `sublist_of` l ∨ (k2 = k ∧ k1 ∈ l).
Proof.
  intros (l1 & l2 & Heq & Hl1 & Hl2)%sublist_app_r.
  apply sublist_cons_r in Hl2 as [Hl2|(l' & -> & Hl')].
  - apply sublist_nil_r in Hl2 as ->. rewrite app_nil_r in Heq.
    subst l1. by left.
  - apply sublist_nil_r in Hl' as ->.
    destruct l1 as [|a [|b l1]]; simplify_eq/=.
    + right. split; [done|]. by apply singleton_sublist_l.
    + destruct l1; simplify_eq/=.
Qed.

Lemma sublist_pair_elem_of {A : Type} (k1 k2 : A) (l : list A) :
  [k1; k2] `sublist_of` l → k1 ∈ l ∧ k2 ∈ l.
Proof.
  intros Hsub. split; eapply elem_of_sublist; [|done| |done]; set_solver.
Qed.

Lemma counter_inv_nil (seen : gset string) : counter_inv seen [] [].
Proof.
  split.
  - constructor.
  - intros k. simpl. rewrite elem_of_nil. tauto.
  - intros k n Hin. by apply elem_of_nil in Hin.
  - intros k1 k2 Hsub. by apply sublist_nil_r in Hsub.
Qed.

Lemma counter_inv_step (seen : gset string) (d : list (string * nat))
    (ks : list string) (rec : Recommendation) :
  counter_inv seen d ks →
  counter_inv seen (count_step seen d rec) (ks ++ [rec_key rec]).
Proof.
  intros [Hnd Hkeys Hcount Horder]. unfold count_step.
  set (k := rec_key rec). destruct (decide (k ∉ seen)) as [Hk|Hk].
  - (* the key is counted *)
    destruct (decide (k ∈ d.*1)) as [Hin|Hnotin].
    + (* a key of the counter *)
      assert (k ∈ ks) as Hks by (by apply Hkeys).
      split.
      * by rewrite incr_keys_in.
      * intros k'. rewrite incr_keys_in, Hkeys, elem_of_app by done.
        rewrite list_elem_of_singleton. intuition (subst; auto).
      * intros k' n Hin'.
        apply elem_of_incr in Hin' as [[Hne Hd]|[-> [(m & -> & Hd)|[_ ?]]]];
          [| |done|done]; apply Hcount in Hd as ->.
        -- by rewrite occurrences_snoc_ne.
        -- by rewrite occurrences_snoc_eq.
      * intros k1 k2. rewrite incr_keys_in by done. intros Hsub.
        destruct (sublist_pair_elem_of _ _ _ Hsub) as [H1 H2].
        apply Hkeys in H1 as [H1 _]. apply Hkeys in H2 as [H2 _].
        rewrite !first_index_app_l by done. by apply Horder.
    + (* a new key *)
      assert (k ∉ ks) as Hks by (intros ?; by apply Hnotin, Hkeys).
      rewrite incr_keys_notin by done. split.
      * rewrite fmap_app. apply NoDup_app. split; [done|]. split.
        -- intros x Hx. simpl. rewrite list_elem_of_singleton. by intros ->.
        -- apply NoDup_singleton.
      * intros k'. rewrite fmap_app, !elem_of_app, Hkeys. simpl.
        rewrite !list_elem_of_singleton. intuition (subst; auto).
      * intros k' n. rewrite elem_of_app, list_elem_of_singleton.
        intros [Hd|[= -> ->]].
        -- assert (k' ≠ k).
           { intros ->. apply Hnotin, list_elem_of_fmap. by exists (k, n). }
           rewrite occurrences_snoc_ne by done. by apply Hcount.
        -- by rewrite occurrences_snoc_eq, occurrences_zero.
      * intros k1 k2. rewrite fmap_app. simpl.
        intros [Hsub|[-> H1]]%sublist_pair_snoc.
        -- destruct (sublist_pair_elem_of _ _ _ Hsub) as [H1 H2].
           apply Hkeys in H1 as [H1 _]. apply Hkeys in H2 as [H2 _].
           rewrite !first_index_app_l by done. by apply Horder.
        -- apply Hkeys in H1 as [H1 _].
           rewrite first_index_app_l, first_index_app_r by done.
           apply first_index_lt in H1. lia.
  - (* the key is in the playlist *)
    apply dec_stable in Hk. split.
    + done.
    + intros k'. rewrite Hkeys, elem_of_app, list_elem_of_singleton.
      intuition (subst; done).
    + intros k' n Hd.
      assert (k' ≠ k).
      { intros ->.
        assert (k ∈ d.*1) as Hin by (apply list_elem_of_fmap; by exists (k, n)).
        apply Hkeys in Hin as [_ Hin]. done. }
      rewrite occurrences_snoc_ne by done. by apply Hcount.
    + intros k1 k2 Hsub.
      destruct (sublist_pair_elem_of _ _ _ Hsub) as [H1 H2].
      apply Hkeys in H1 as [H1 _]. apply Hkeys in H2 as [H2 _].
      rewrite !first_index_app_l by done. by apply Horder.
Qed.

Lemma counter_inv_foldl (seen : gset string) (recs : list Recommendation)
    (d : list (string * nat)) (ks : list string) :
  counter_inv seen d ks →
  counter_inv seen (foldl (count_step seen) d recs) (ks ++ (rec_key <$> recs)).
Proof.
  revert d ks. induction recs as [|rec recs IH]; intros d ks Hinv.
  - by rewrite app_nil_r.
  - simpl. rewrite cons_middle, app_assoc. by apply IH, counter_inv_step.
Qed.

Lemma recommendation_count_inv (seen : gset string)
    (recs : list Recommendation) :
  counter_inv seen (recommendation_count seen recs) (rec_key <$> recs).
Proof. apply (counter_inv_foldl seen recs [] []), counter_inv_nil. Qed.

(** * Facts about the sort *)

Lemma insert_desc_perm (x : string * nat) (l : list (string * nat)) :
  insert_desc x l ≡ₚ x :: l.
Proof.
  induction l as [|y l IH]; [done|]. simpl.
  destruct (x.2 <? y.2); [|done]. rewrite IH. apply Permutation_swap.
Qed.

Lemma sorted_desc_perm (l : list (string * nat)) : sorted_desc l ≡ₚ l.
Proof.
  induction l as [|x l IH]; [done|]. simpl.
  by rewrite insert_desc_perm, IH.
Qed.

Lemma insert_desc_sorted (x : string * nat) (l : list (string * nat)) :
  StronglySorted count_ge l → StronglySorted count_ge (insert_desc x l).
Proof.
  induction l as [|y l IH]; intros Hl.
  - simpl. by repeat constructor.
  - apply StronglySorted_cons in Hl as [Hy Hl]. simpl.
    destruct (x.2 <? y.2) eqn:Hlt.
    + apply Nat.ltb_lt in Hlt. apply StronglySorted_cons. split; [|auto].
      rewrite insert_desc_perm. constructor; [|done].
      unfold count_ge. lia.
    + apply Nat.ltb_ge in Hlt. apply StronglySorted_cons. split.
      * constructor; [done|].
        eapply Forall_impl; [exact Hy|]. unfold count_ge. intros z ?. lia.
      * by apply StronglySorted_cons.
Qed.

Lemma sorted_desc_sorted (l : list (string * nat)) :
  StronglySorted count_ge (sorted_desc l).
Proof.
  induction l as [|x l IH]; [constructor|]. by apply insert_desc_sorted.
Qed.

(** The sort is stable: the items of one count keep their order. *)
Lemma insert_desc_stable (c : nat) (x : string * nat)
    (l : list (string * nat)) :
  filter (λ p, p.2 = c) (insert_desc x l) = filter (λ p, p.2 = c) (x :: l).
Proof.
  induction l as [|y l IH]; [done|]. simpl.
  destruct (x.2 <? y.2) eqn:Hlt; [|done].
  apply Nat.ltb_lt in Hlt.
  rewrite (filter_cons _ y), IH, !filter_cons.
  repeat case_decide; try done; lia.
Qed.

Lemma sorted_desc_stable (c : nat) (l : list (string * nat)) :
  filter (λ p, p.2 = c) (sorted_desc l) = filter (λ p, p.2 = c) l.
Proof.
  induction l as [|x l IH]; [done|]. simpl.
  by rewrite insert_desc_stable, !filter_cons, IH.
Qed.

(** Two items of one count that follow each other in the sorted list
    followed each other before the sort. *)
Lemma sorted_desc_ties (a b : string * nat) (l : list (string * nat)) :
  a.2 = b.2 → [a; b] `sublist_of` sorted_desc l → [a; b] `sublist_of` l.
Proof.
  intros Hab Hsub.
  etrans; [|apply (sublist_filter (λ p, p.2 = a.2))].
  rewrite <-sorted_desc_stable.
  replace [a; b] with (filter (λ p, p.2 = a.2) [a; b]).
  - clear Hab. induction Hsub as [|x l1 l2 _ IH|x l1 l2 _ IH]; [done|..].
    + rewrite !(filter_cons _ x). case_decide; [by constructor|done].
    + rewrite (filter_cons _ x). case_decide; [by constructor|done].
  - rewrite !filter_cons, filter_nil. repeat case_decide; done.
Qed.

(** * Facts about the last loop *)

Lemma final_step_two_parts (recs final : list Recommendation)
    (item : string * nat) :
  two_parts item →
  final_step recs final item = Ok (final ++ option_list (recovered recs item)).
Proof.
  unfold two_parts, final_step, recovered.
  destruct (split BY item.1) as [|a [|b [|c l]]]; try done. intros _.
  destruct (next_match recs a b); [done|]. by rewrite app_nil_r.
Qed.

Lemma final_step_other (recs final : list Recommendation)
    (item : string * nat) :
  ¬ two_parts item → final_step recs final item = Raise ValueError.
Proof.
  unfold two_parts, final_step.
  by destruct (split BY item.1) as [|a [|b [|c l]]].
Qed.

Lemma final_loop_Ok (recs : list Recommendation) (top : list (string * nat))
    (final : list Recommendation) :
  Forall two_parts top →
  for_each top (final_step recs) final = Ok (final ++ omap (recovered recs) top).
Proof.
  intros Htop. revert final.
  induction Htop as [|item top Hitem _ IH]; intros final.
  - simpl. by rewrite app_nil_r.
  - simpl. rewrite final_step_two_parts by done. simpl.
    rewrite IH, <-app_assoc. by destruct (recovered recs item).
Qed.

Lemma final_loop_Raise (recs : list Recommendation)
    (top : list (string * nat)) (final : list Recommendation) :
  ¬ Forall two_parts top →
  for_each top (final_step recs) final = Raise ValueError.
Proof.
  revert final. induction top as [|item top IH]; intros final Htop.
  - destruct Htop. constructor.
  - simpl. destruct (decide (two_parts item)) as [Hitem|Hitem].
    + rewrite final_step_two_parts by done. simpl. apply IH.
      intros Hall. apply Htop. by constructor.
    + by rewrite final_step_other.
Qed.

(** The record that is recovered for a key has that key. *)
Lemma split_two_parts (k a b : string) :
  split BY k = [a; b] → k = a +:+ BY +:+ b.
Proof.
  intros Hsplit. rewrite <-(split_join BY) at 1 by done. by rewrite Hsplit.
Qed.

Lemma next_match_Some (recs : list Recommendation) (a b : string)
    (rec : Recommendation) :
  next_match recs a b = Some rec →
  rec ∈ recs ∧ lower (rec_title rec) = a ∧ lower (rec_artist rec) = b.
Proof.
  unfold next_match. intros [Hin Hb]%find_some.
  apply andb_prop in Hb as [?%bool_decide_eq_true ?%bool_decide_eq_true].
  split; [by apply list_elem_of_In|done].
Qed.

Lemma recovered_Some (recs : list Recommendation) (item : string * nat)
    (rec : Recommendation) :
  recovered recs item = Some rec → rec ∈ recs ∧ rec_key rec = item.1.
Proof.
  unfold recovered.
  destruct (split BY item.1) as [|a [|b [|c l]]] eqn:Hsplit; try done.
  intros (Hin & Ha & Hb)%next_match_Some. split; [done|].
  apply split_two_parts in Hsplit. unfold rec_key. by rewrite Ha, Hb.
Qed.

(** * The ranking routine as a whole *)

Lemma elem_of_playlist_songs (tracks : list Track) (k : string) :
  k ∈ playlist_songs tracks ↔ ∃ t, t ∈ tracks ∧ track_key t = k.
Proof.
  unfold playlist_songs. rewrite elem_of_list_to_set, list_elem_of_fmap.
  split; intros (t & ? & ?); by exists t.
Qed.

Lemma filter_Ok_inv (tracks : list Track) (recs out : list Recommendation) :
  filter_and_get_top_recommendations tracks recs = Ok out →
  Forall two_parts (top_recommendations tracks recs)
  ∧ out = omap (recovered recs) (top_recommendations tracks recs).
Proof.
  unfold filter_and_get_top_recommendations. intros Hout.
  destruct (decide (Forall two_parts (top_recommendations tracks recs)))
    as [Htop|Htop].
  - rewrite final_loop_Ok in Hout by done. by simplify_eq/=.
  - by rewrite final_loop_Raise in Hout.
Qed.

Lemma top_sublist_sorted (tracks : list Track) (recs : list Recommendation) :
  top_recommendations tracks recs `sublist_of`
    sorted_desc (recommendation_count (playlist_songs tracks) recs).
Proof. apply sublist_take. Qed.

Lemma elem_of_top (tracks : list Track) (recs : list Recommendation)
    (item : string * nat) :
  item ∈ top_recommendations tracks recs →
  item ∈ recommendation_count (playlist_songs tracks) recs.
Proof.
  intros Hin. rewrite <-sorted_desc_perm.
  eapply elem_of_sublist; [done|apply top_sublist_sorted].
Qed.

(** An item of the counter holds a counted key and its occurrence count. *)
Lemma elem_of_counter (tracks : list Track) (recs : list Recommendation)
    (k : string) (n : nat) :
  (k, n) ∈ recommendation_count (playlist_songs tracks) recs →
  k ∈ (rec_key <$> recs) ∧ (k ∉ playlist_songs tracks)
  ∧ n = occurrence_count tracks recs k.
Proof.
  intros Hin.
  destruct (recommendation_count_inv (playlist_songs tracks) recs)
    as [_ Hkeys Hcount _].
  assert (k ∈ (recommendation_count (playlist_songs tracks) recs).*1) as Hk.
  { apply list_elem_of_fmap. by exists (k, n). }
  apply Hkeys in Hk as [Hk Hseen]. split_and!; [done..|].
  unfold occurrence_count, counted_keys.
  rewrite occurrences_filter by done. by apply Hcount.
Qed.

Lemma top_keys_NoDup (tracks : list Track) (recs : list Recommendation) :
  NoDup (top_recommendations tracks recs).*1.
Proof.
  eapply sublist_NoDup; [|apply fmap_sublist, top_sublist_sorted].
  rewrite sorted_desc_perm. apply recommendation_count_inv.
Qed.

Lemma length_omap_le {A B : Type} (g : A → option B) (l : list A) :
  length (omap g l) ≤ length l.
Proof.
  induction l as [|x l IH]; [done|]. cbn. destruct (g x); cbn; lia.
Qed.

Lemma omap_keys_sublist {A B K : Type} (g : A → option B) (kb : B → K)
    (ka : A → K) (l : list A) :
  (∀ x y, g x = Some y → kb y = ka x) →
  kb <$> omap g l `sublist_of` ka <$> l.
Proof.
  intros Hg. induction l as [|x l IH]; [done|]. simpl.
  destruct (g x) as [y|] eqn:Hx; simpl.
  - rewrite (Hg x y) by done. by constructor.
  - by constructor.
Qed.

Lemma sublist_pair_omap {A B : Type} (g : A → option B) (l : list A)
    (y1 y2 : B) :
  [y1; y2] `sublist_of` omap g l →
  ∃ x1 x2, [x1; x2] `sublist_of` l ∧ g x1 = Some y1 ∧ g x2 = Some y2.
Proof.
  induction l as [|x l IH]; simpl.
  - by intros ?%sublist_nil_r.
  - destruct (g x) as [y|] eqn:Hx.
    + intros [Hsub|(l' & [= <- <-] & Hsub)]%sublist_cons_r.
      * destruct (IH Hsub) as (x1 & x2 & ? & ? & ?).
        exists x1, x2. split; [by constructor|done].
      * apply singleton_sublist_l, list_elem_of_omap in Hsub
          as (x2 & Hx2 & Hg2).
        exists x, x2. split; [|done].
        constructor. by apply singleton_sublist_l.
    + intros Hsub. destruct (IH Hsub) as (x1 & x2 & ? & ? & ?).
      exists x1, x2. split; [by constructor|done].
Qed.

Lemma counter_keys_counted (tracks : list Track) (recs : list Recommendation)
    (k : string) :
  k ∈ (recommendation_count (playlist_songs tracks) recs).*1
  ↔ k ∈ counted_keys tracks recs.
Proof.
  destruct (recommendation_count_inv (playlist_songs tracks) recs)
    as [_ Hkeys _ _].
  unfold counted_keys. rewrite Hkeys, list_elem_of_filter. tauto.
Qed.






(** What is recovered for an item of the counter, with its key and count. *)
Lemma recovered_top (tracks : list Track) (recs : list Recommendation)
    (item : string * nat) (rec : Recommendation) :
  item ∈ top_recommendations tracks recs →
  recovered recs item = Some rec →
  item = (rec_key rec, occurrence_count tracks recs (rec_key rec)).
Proof.
  intros Hin [_ Hkey]%recovered_Some. destruct item as [k n].
  simpl in Hkey. subst k.
  by apply elem_of_top, elem_of_counter in Hin as (_ & _ & ->).
Qed.

(** Among candidates that are well split, every key of the counter gives a
    record. *)
Lemma recovered_well_split (tracks : list Track) (recs : list Recommendation)
    (item : string * nat) :
  Forall well_split recs →
  item ∈ recommendation_count (playlist_songs tracks) recs →
  two_parts item ∧ is_Some (recovered recs item).
Proof.
  intros Hws Hin. destruct item as [k n].
  apply elem_of_counter in Hin as (Hk & _ & _).
  apply list_elem_of_fmap in Hk as (rec & -> & Hrec).
  rewrite Forall_forall in Hws. pose proof (Hws _ Hrec) as Hsplit.
  unfold two_parts, recovered. simpl. rewrite Hsplit. split; [done|].
  unfold next_match.
  destruct (find _ recs) as [rec'|] eqn:Hfind; [by eexists|].
  apply list_elem_of_In in Hrec.
  apply (find_none _ _ Hfind rec) in Hrec as Hfalse.
  by rewrite !bool_decide_eq_true_2 in Hfalse.
Qed.


Lemma lower_append (s1 s2 : string) :
  lower (s1 +:+ s2) = lower s1 +:+ lower s2.
Proof.
  induction s1 as [|c s1 IH]; [done|]. rewrite append_cons. simpl.
  by rewrite IH.
Qed.

Lemma has_substring_lower (s : string) :
  has_substring BY s → has_substring BY (lower s).
Proof.
  intros (x & y & ->). exists (lower x), (lower y).
  by rewrite !lower_append.
Qed.

Lemma split_key_inside (rec : Recommendation) :
  has_substring BY (lower (rec_title rec))
  ∨ has_substring BY (lower (rec_artist rec)) →
  3 ≤ length (split BY (rec_key rec)).
Proof.
  unfold rec_key. intros [(x & y & ->)|(x & y & ->)].
  - rewrite !append_assoc. by apply split_length_twice.
  - by apply split_length_twice.
Qed.

Lemma filter_Raise_iff (tracks : list Track) (recs : list Recommendation)
    (e : exn) :
  filter_and_get_top_recommendations tracks recs = Raise e ↔
  e = ValueError
  ∧ Exists (λ item, length (split BY item.1) ≠ 2)
      (top_recommendations tracks recs).
Proof.
  unfold filter_and_get_top_recommendations.
  destruct (decide (Forall two_parts (top_recommendations tracks recs)))
    as [Htop|Htop].
  - rewrite final_loop_Ok by done. split; [done|].
    intros [_ Hex%Exists_not_Forall]. done.
  - rewrite final_loop_Raise by done.
    apply not_Forall_Exists in Htop; [|apply _].
    split; [|by intros [-> _]]. intros [= <-]. done.
Qed.

Lemma find_ext_in {A : Type} (p q : A → bool) (l : list A) :
  (∀ x, x ∈ l → p x = q x) → List.find p l = List.find q l.
Proof.
  induction l as [|x l IH]; intros Hpq; [done|]. simpl.
  rewrite (Hpq x) by left. destruct (q x); [done|].
  apply IH. intros y Hy. apply Hpq. by right.
Qed.

Lemma recovered_first_with_key (tracks : list Track)
    (recs : list Recommendation) (item : string * nat) :
  Forall well_split recs →
  item ∈ recommendation_count (playlist_songs tracks) recs →
  recovered recs item = first_with_key recs item.1.
Proof.
  intros Hws Hin. destruct item as [k n].
  apply elem_of_counter in Hin as (Hk & _ & _).
  apply list_elem_of_fmap in Hk as (rec0 & -> & Hrec0).
  rewrite Forall_forall in Hws. pose proof (Hws _ Hrec0) as Hsplit0.
  unfold recovered, next_match, first_with_key. simpl. rewrite Hsplit0.
  apply find_ext_in. intros rec Hrec.
  destruct (decide (rec_key rec = rec_key rec0)) as [Heq|Hne].
  - rewrite (bool_decide_eq_true_2 (rec_key rec = _)) by done.
    pose proof (Hws _ Hrec) as Hsplit. unfold well_split in Hsplit.
    rewrite Heq, Hsplit0 in Hsplit. simplify_eq.
    by rewrite !bool_decide_eq_true_2.
  - rewrite (bool_decide_eq_false_2 (rec_key rec = _)) by done.
    apply andb_false_iff.
    destruct (decide (lower (rec_title rec) = lower (rec_title rec0)))
      as [Ht|Ht]; [|left; by apply bool_decide_eq_false_2].
    right. apply bool_decide_eq_false_2. intros Ha. apply Hne.
    unfold rec_key. by rewrite Ht, Ha.
Qed.

(** * Facts about the playlist reader and the search filter *)

Lemma reads_track_unique (track : TrackObj) (t t' : Track) :
  reads_track track t → reads_track track t' → t = t'.
Proof.
  destruct t, t'. unfold reads_track. simpl.
  intros (-> & -> & Hid) (-> & -> & Hid'). congruence.
Qed.

Lemma spotify_step_null (song_list : list Track) (item : Item) :
  item_track item = None → spotify_step song_list item = Ok song_list.
Proof. unfold spotify_step. by intros ->. Qed.

Lemma spotify_step_track (song_list : list Track) (item : Item)
    (track : TrackObj) :
  item_track item = Some track →
  (obj_id track = None ∧ spotify_step song_list item = Raise (KeyError "id"))
  ∨ (∃ t, reads_track track t ∧ spotify_step song_list item = Ok (song_list ++ [t])).
Proof.
  unfold spotify_step. intros ->.
  destruct (obj_id track) as [id|] eqn:Hid; simpl.
  - right. eexists. split; [|done]. by split_and!.
  - by left.
Qed.

Lemma spotify_loop (items : list Item) (song_list : list Track) :
  (Exists lacks_id items
   ∧ for_each items spotify_step song_list = Raise (KeyError "id"))
  ∨ (∃ new, Forall2 reads_track (omap item_track items) new
            ∧ for_each items spotify_step song_list = Ok (song_list ++ new)).
Proof.
  revert song_list. induction items as [|item items IH]; intros song_list.
  - right. exists []. split; [constructor|]. simpl. by rewrite app_nil_r.
  - simpl. destruct (item_track item) as [track|] eqn:Htrack.
    + destruct (spotify_step_track song_list item track Htrack)
        as [[Hid ->]|(t & Ht & ->)]; simpl.
      * left. split; [|done]. left. by exists track.
      * destruct (IH (song_list ++ [t])) as [[Hex ->]|(new & Hnew & ->)].
        -- left. split; [by right|done].
        -- right. exists (t :: new). split; [by constructor|].
           by rewrite <-app_assoc.
    + rewrite spotify_step_null by done. simpl.
      destruct (IH song_list) as [[Hex ->]|(new & Hnew & ->)].
      * left. split; [by right|done].
      * right. by exists new.
Qed.

Lemma get_spotify_tracks_loop (playlist_id : string)
    (sp : string → PlaylistPage) :
  get_spotify_tracks playlist_id sp
  = for_each (default [] (page_items (sp playlist_id))) spotify_step [].
Proof.
  unfold get_spotify_tracks.
  by destruct (default [] (page_items (sp playlist_id))).
Qed.

Lemma reads_track_has_id (items : list Item) (tracks : list Track) :
  Forall2 reads_track (omap item_track items) tracks →
  ¬ Exists lacks_id items.
Proof.
  intros Hreads (item & Hin & track & Htrack & Hid)%Exists_exists.
  assert (track ∈ omap item_track items) as Hin'.
  { apply list_elem_of_omap. by exists item. }
  assert (Forall (λ o, is_Some (obj_id o)) (omap item_track items)) as Hids.
  { eapply Forall2_Forall_l; [exact Hreads|].
    apply Forall_forall. intros t _ track' (_ & _ & Hid'). by eexists. }
  rewrite Forall_forall in Hids. apply Hids in Hin' as [id Hid'].
  congruence.
Qed.

Lemma youtube_step_skipped (fuzz_ratio : string → string → Z)
    (song_name artist_name track_id : string)
    (recommendations : list Recommendation) (hit : SearchResult) :
  skipped fuzz_ratio song_name artist_name hit = true →
  youtube_step fuzz_ratio song_name artist_name track_id recommendations hit
  = Ok recommendations.
Proof.
  unfold skipped, youtube_step.
  destruct (result_artist hit) as [artist|e]; [|done]. simpl. by intros ->.
Qed.

Lemma youtube_step_Ok (fuzz_ratio : string → string → Z)
    (song_name artist_name track_id : string)
    (recommendations recs : list Recommendation) (hit : SearchResult) :
  youtube_step fuzz_ratio song_name artist_name track_id recommendations hit
  = Ok recs →
  recs = recommendations
  ∨ ∃ rec, recs = recommendations ++ [rec]
           ∧ made_from fuzz_ratio song_name artist_name [hit] rec.
Proof.
  unfold youtube_step, made_from, skipped.
  destruct (result_artist hit) as [artist|e] eqn:Hartist; [|done]. simpl.
  destruct (fuzzy_match _ _ _ _ _) eqn:Hfuzzy.
  - intros [= <-]. by left.
  - destruct (result_thumbnail hit) as [thumbnail|e]; [|done]. simpl.
    intros [= <-]. right. eexists. split; [done|].
    exists hit. simpl. rewrite Hartist. split_and!; [left|done..].
Qed.

Lemma youtube_loop_Ok (fuzz_ratio : string → string → Z)
    (song_name artist_name track_id : string) (hits : list SearchResult)
    (recommendations recs : list Recommendation) :
  for_each hits (youtube_step fuzz_ratio song_name artist_name track_id)
    recommendations = Ok recs →
  ∃ new, recs = recommendations ++ new
         ∧ length new ≤ length hits
         ∧ Forall (made_from fuzz_ratio song_name artist_name hits) new.
Proof.
  revert recommendations. induction hits as [|hit hits IH];
    intros recommendations.
  - intros [= <-]. exists []. by rewrite app_nil_r.
  - simpl.
    destruct (youtube_step _ _ _ _ recommendations hit) as [recs'|e] eqn:Hstep;
      [|done].
    simpl. intros (new & -> & Hlen & Hnew)%IH.
    assert (Forall (made_from fuzz_ratio song_name artist_name (hit :: hits)) new)
      as Hnew'.
    { eapply Forall_impl; [exact Hnew|].
      intros rec (h & ? & ?). exists h. split; [by right|done]. }
    apply youtube_step_Ok in Hstep as [->|(rec & -> & h & Hh & Hrec)].
    + exists new. split_and!; [done|simpl; lia|done].
    + exists (rec :: new). rewrite <-app_assoc. split_and!; [done|simpl; lia|].
      constructor; [|done]. exists h. split; [|done].
      apply list_elem_of_singleton in Hh as ->. left.
Qed.

Lemma youtube_loop_skip (fuzz_ratio : string → string → Z)
    (song_name artist_name track_id : string) (hits : list SearchResult)
    (recommendations : list Recommendation) :
  for_each hits (youtube_step fuzz_ratio song_name artist_name track_id)
    recommendations
  = for_each
      (filter (λ hit, ¬ skipped fuzz_ratio song_name artist_name hit) hits)
      (youtube_step fuzz_ratio song_name artist_name track_id) recommendations.
Proof.
  revert recommendations. induction hits as [|hit hits IH];
    intros recommendations; [done|].
  rewrite filter_cons.
  destruct (skipped fuzz_ratio song_name artist_name hit) eqn:Hskip; simpl.
  - rewrite youtube_step_skipped by done. simpl. apply IH.
  - destruct (youtube_step _ _ _ _ recommendations hit); simpl; [apply IH|done].
Qed.

Lemma get_youtube_loop (ytmusic_search : string → list SearchResult)
    (fuzz_ratio : string → string → Z) (song_name artist_name track_id : string) :
  get_youtube_music_recommendations ytmusic_search fuzz_ratio
    song_name artist_name track_id
  = for_each (take 10 (ytmusic_search (song_name +:+ " " +:+ artist_name)))
      (youtube_step fuzz_ratio song_name artist_name track_id) [].
Proof.
  unfold get_youtube_music_recommendations.
  by destruct (ytmusic_search _).
Qed.

(** ** The fuzzy match with its ratios *)

Lemma result_artist_first (hit : SearchResult) (artist : string) :
  result_artist hit = Ok artist ↔ first_artist hit = Some artist.
Proof.
  unfold result_artist, first_artist, first_item.
  destruct (res_artists hit) as [[|a artists]|]; simpl; split;
    intros Heq; by simplify_eq.
Qed.

Lemma fuzzy_match_ratios (fuzz_ratio : string → string → Z)
    (song_name artist_name title artist : string) :
  fuzzy_match fuzz_ratio song_name artist_name title artist = true
  ↔ (90 < fuzz_ratio (lower title) (lower song_name))%Z
    ∧ (90 < fuzz_ratio (lower artist) (lower artist_name))%Z.
Proof.
  unfold fuzzy_match. by rewrite andb_true_iff, !bool_decide_eq_true.
Qed.

Lemma skipped_ratios (fuzz_ratio : string → string → Z)
    (song_name artist_name : string) (hit : SearchResult) :
  skipped fuzz_ratio song_name artist_name hit
  ↔ fuzzy_matches_track fuzz_ratio song_name artist_name hit.
Proof.
  unfold skipped, fuzzy_matches_track.
  destruct (result_artist hit) as [artist|e] eqn:Hartist.
  - apply result_artist_first in Hartist.
    rewrite Is_true_true, fuzzy_match_ratios. split.
    + intros Hboth. by exists artist.
    + intros (artist' & Hartist' & Hboth). by simplify_eq.
  - split; [done|]. intros (artist & Hfirst%result_artist_first & _).
    congruence.
Qed.

Lemma youtube_step_titles (fuzz_ratio : string → string → Z)
    (song_name artist_name track_id : string)
    (recommendations recs : list Recommendation) (hit : SearchResult) :
  youtube_step fuzz_ratio song_name artist_name track_id recommendations hit
  = Ok recs →
  rec_title <$> recs
  = (rec_title <$> recommendations)
    ++ (res_title <$>
          filter (λ hit, ¬ fuzzy_matches_track fuzz_ratio song_name artist_name
                             hit) [hit]).
Proof.
  unfold youtube_step.
  destruct (result_artist hit) as [artist|e] eqn:Hartist; [|done]. simpl.
  apply result_artist_first in Hartist.
  destruct (fuzzy_match fuzz_ratio song_name artist_name (res_title hit) artist)
    eqn:Hfuzzy.
  - intros [= <-]. rewrite filter_cons_False, filter_nil, app_nil_r; [done|].
    intros Hnot. apply Hnot. exists artist. split; [done|].
    by apply fuzzy_match_ratios.
  - destruct (result_thumbnail hit) as [thumbnail|e]; [|done]. simpl.
    intros [= <-]. rewrite filter_cons_True, filter_nil, fmap_app; [done|].
    intros (artist' & Hartist' & Hboth). simplify_eq.
    apply fuzzy_match_ratios in Hboth. congruence.
Qed.

Lemma youtube_loop_titles (fuzz_ratio : string → string → Z)
    (song_name artist_name track_id : string) (hits : list SearchResult)
    (recommendations recs : list Recommendation) :
  for_each hits (youtube_step fuzz_ratio song_name artist_name track_id)
    recommendations = Ok recs →
  rec_title <$> recs
  = (rec_title <$> recommendations)
    ++ (res_title <$>
          filter (λ hit, ¬ fuzzy_matches_track fuzz_ratio song_name artist_name
                             hit) hits).
Proof.
  revert recommendations. induction hits as [|hit hits IH];
    intros recommendations.
  - intros [= <-]. by rewrite filter_nil, app_nil_r.
  - cbn [for_each].
    destruct (youtube_step _ _ _ _ recommendations hit) as [recs'|e] eqn:Hstep;
      [|done].
    simpl. intros Hloop%IH. apply youtube_step_titles in Hstep.
    rewrite Hloop, Hstep, <-app_assoc, <-fmap_app. f_equal. f_equal.
    rewrite (filter_cons _ hit hits), filter_cons, filter_nil.
    by case_decide.
Qed.

(** * The claims *)

(** C1, on the code: a candidate whose title holds the separator is not
    recovered.  The key of "Stand By Me" is counted, and the routine raises
    [ValueError]; the key of "Drive By" is counted, and the routine returns
    no record for it. *)
Theorem C1_first_candidate_not_recovered :
  (top_recommendations [sample_track] [stand_by_me]).*1 = [rec_key stand_by_me]
  ∧ first_with_key [stand_by_me] (rec_key stand_by_me) = Some stand_by_me
  ∧ filter_and_get_top_recommendations [sample_track] [stand_by_me]
    = Raise ValueError
  ∧ (top_recommendations [sample_track] [drive_by]).*1 = [rec_key drive_by]
  ∧ first_with_key [drive_by] (rec_key drive_by) = Some drive_by
  ∧ filter_and_get_top_recommendations [sample_track] [drive_by] = Ok [].
Proof. vm_compute. done. Qed.

(** C2: the routine raises [ValueError] exactly when a key among the first
    ten of the sorted counter splits on the separator into a number of parts
    that is not two.  That is so whenever the title or the artist of a
    candidate with such a key holds the separator, before or after
    lowercasing, and [ValueError] is the only exception of the routine. *)
Theorem C2_raises_on_separator_inside (tracks : list Track)
    (recs : list Recommendation) :
  (filter_and_get_top_recommendations tracks recs = Raise ValueError
   ↔ Exists (λ item, length (split BY item.1) ≠ 2)
       (top_recommendations tracks recs))
  ∧ (∀ rec,
       rec_key rec ∈ (top_recommendations tracks recs).*1 →
       has_substring BY (rec_title rec) ∨ has_substring BY (rec_artist rec)
       ∨ has_substring BY (lower (rec_title rec))
       ∨ has_substring BY (lower (rec_artist rec)) →
       filter_and_get_top_recommendations tracks recs = Raise ValueError)
  ∧ (∀ e, filter_and_get_top_recommendations tracks recs = Raise e →
          e = ValueError).
Proof.
  split_and!.
  - rewrite filter_Raise_iff. tauto.
  - intros rec ([k n] & Hk & Hin)%list_elem_of_fmap Hinside.
    apply filter_Raise_iff. split; [done|].
    apply Exists_exists. exists (k, n). split; [done|].
    assert (3 ≤ length (split BY (rec_key rec))) as Hparts.
    { apply split_key_inside.
      destruct Hinside as [?%has_substring_lower|[?%has_substring_lower|[?|?]]];
        auto. }
    simpl in *. subst k. lia.
  - by intros e [? _]%filter_Raise_iff.
Qed.

Lemma C2_raises_on_separator_inside_witness :
  filter_and_get_top_recommendations [sample_track]
    [song_A; stand_by_me; song_A] = Raise ValueError.
Proof.
  apply (C2_raises_on_separator_inside [sample_track]
           [song_A; stand_by_me; song_A]) with (rec := stand_by_me).
  - by_evaluation.
  - right. right. left. exists "stand", "me". reflexivity.
Defined.

(** C3: a list that the routine returns has at most ten records, and at
    most as many records as there are distinct candidate keys outside the
    set of playlist keys. *)
Theorem C3_output_length_bounds (tracks : list Track)
    (recs out : list Recommendation) :
  filter_and_get_top_recommendations tracks recs = Ok out →
  length out ≤ 10 ∧ length out ≤ size (distinct_counted_keys tracks recs).
Proof.
  intros [_ ->]%filter_Ok_inv.
  pose proof (length_omap_le (recovered recs) (top_recommendations tracks recs))
    as Hout.
  assert (length (top_recommendations tracks recs) ≤ 10) as Hten.
  { unfold top_recommendations. rewrite length_take. lia. }
  assert (length (top_recommendations tracks recs)
          ≤ size (distinct_counted_keys tracks recs)) as Hkeys; [|lia].
  etrans; [apply sublist_length, top_sublist_sorted|].
  rewrite sorted_desc_perm.
  rewrite <-(length_fmap fst).
  rewrite <-(size_list_to_set (C:=gset string))
    by apply recommendation_count_inv.
  apply Nat.eq_le_incl. f_equal. apply set_eq. intros k.
  unfold distinct_counted_keys. rewrite !elem_of_list_to_set.
  apply counter_keys_counted.
Qed.

Lemma C3_output_length_bounds_witness :
  length (take 10 twelve_candidates) ≤ 10
  ∧ length (take 10 twelve_candidates)
    ≤ size (distinct_counted_keys [sample_track]
              (twelve_candidates ++ [candidate "SONG" "artist"])).
Proof.
  apply (C3_output_length_bounds [sample_track]
           (twelve_candidates ++ [candidate "SONG" "artist"])).
  vm_compute. reflexivity.
Defined.





(** C6: when the key of every candidate is the key of a playlist track, the
    routine returns the empty list. *)
Theorem C6_covered_candidates_give_nothing (tracks : list Track)
    (recs : list Recommendation) :
  Forall (λ rec, Exists (λ track, rec_key rec = track_key track) tracks) recs →
  filter_and_get_top_recommendations tracks recs = Ok [].
Proof.
  intros Hcovered.
  assert (recommendation_count (playlist_songs tracks) recs = []) as Hd.
  { destruct (recommendation_count (playlist_songs tracks) recs)
      as [|[k n] d] eqn:Hd; [done|].
    assert ((k, n) ∈ recommendation_count (playlist_songs tracks) recs)
      as (Hk & Hseen & _)%elem_of_counter by (rewrite Hd; left).
    destruct Hseen. apply list_elem_of_fmap in Hk as (rec & -> & Hrec).
    rewrite Forall_forall in Hcovered. apply Hcovered in Hrec.
    apply Exists_exists in Hrec as (t & Ht & Heq).
    apply elem_of_playlist_songs. by exists t. }
  unfold filter_and_get_top_recommendations, top_recommendations.
  by rewrite Hd.
Qed.

Lemma C6_covered_candidates_give_nothing_witness :
  filter_and_get_top_recommendations [sample_track]
    [candidate "SONG" "artist"; candidate "song" "ARTIST"] = Ok [].
Proof.
  apply C6_covered_candidates_give_nothing. by_evaluation.
Defined.

(** C7: the sort keeps the items of one count in the order of the counter,
    and two returned records with the same occurrence count stand in the
    order in which their keys first occur in the candidate list. *)
Theorem C7_ties_by_first_occurrence (tracks : list Track)
    (recs : list Recommendation) :
  (∀ c, filter (λ item, item.2 = c)
          (sorted_desc (recommendation_count (playlist_songs tracks) recs))
        = filter (λ item, item.2 = c)
            (recommendation_count (playlist_songs tracks) recs))
  ∧ ∀ out r1 r2,
      filter_and_get_top_recommendations tracks recs = Ok out →
      [r1; r2] `sublist_of` out →
      occurrence_count tracks recs (rec_key r1)
      = occurrence_count tracks recs (rec_key r2) →
      first_index (rec_key r1) (rec_key <$> recs)
      < first_index (rec_key r2) (rec_key <$> recs).
Proof.
  split; [intros c; apply sorted_desc_stable|].
  intros out r1 r2 [_ ->]%filter_Ok_inv Hsub Heq.
  apply sublist_pair_omap in Hsub as (x1 & x2 & Hsub & H1 & H2).
  destruct (sublist_pair_elem_of _ _ _ Hsub) as [Hx1 Hx2].
  apply (recovered_top tracks) in H1; [|done].
  apply (recovered_top tracks) in H2; [|done].
  assert ([x1; x2] `sublist_of`
            recommendation_count (playlist_songs tracks) recs) as Hd.
  { apply sorted_desc_ties; [by subst|].
    etrans; [done|apply top_sublist_sorted]. }
  apply (fmap_sublist fst) in Hd. subst x1 x2. simpl in Hd.
  by apply (inv_order _ _ _
              (recommendation_count_inv (playlist_songs tracks) recs)).
Qed.

Lemma C7_ties_by_first_occurrence_witness :
  first_index (rec_key song_C)
    (rec_key <$> [song_C; song_B; song_A; song_B; song_A; song_C])
  < first_index (rec_key song_A)
      (rec_key <$> [song_C; song_B; song_A; song_B; song_A; song_C]).
Proof.
  apply (C7_ties_by_first_occurrence [sample_track]
           [song_C; song_B; song_A; song_B; song_A; song_C])
    with (out := [song_C; song_B; song_A]).
  - vm_compute. reflexivity.
  - apply sublist_skip, sublist_cons, sublist_skip, sublist_nil.
  - vm_compute. reflexivity.
Defined.

(** C8: the keys of the returned records are pairwise distinct; they are
    keys of the sorted counter, in its order; and what the last loop adds for
    an item of the counter is a candidate whose key is the key of the item. *)
Theorem C8_output_keys_distinct (tracks : list Track)
    (recs out : list Recommendation) :
  filter_and_get_top_recommendations tracks recs = Ok out →
  NoDup (rec_key <$> out)
  ∧ (rec_key <$> out) `sublist_of` (top_recommendations tracks recs).*1
  ∧ ∀ final item final',
      final_step recs final item = Ok final' →
      final' = final
      ∨ ∃ rec, final' = final ++ [rec] ∧ rec ∈ recs ∧ rec_key rec = item.1.
Proof.
  intros [_ ->]%filter_Ok_inv.
  assert ((rec_key <$> omap (recovered recs) (top_recommendations tracks recs))
            `sublist_of` (top_recommendations tracks recs).*1) as Hsub.
  { apply omap_keys_sublist. intros item rec Hrec.
    by apply recovered_Some in Hrec as [_ ?]. }
  split_and!; [|done|].
  - eapply sublist_NoDup; [apply top_keys_NoDup|done].
  - intros final item final' Hstep.
    destruct (decide (two_parts item)) as [Hitem|Hitem].
    + rewrite final_step_two_parts in Hstep by done. simplify_eq.
      destruct (recovered recs item) as [rec|] eqn:Hrec; simpl.
      * right. exists rec. by apply recovered_Some in Hrec as [? ?].
      * left. by rewrite app_nil_r.
    + by rewrite final_step_other in Hstep.
Qed.

Lemma C8_output_keys_distinct_witness :
  NoDup (rec_key <$> [candidate "Intro" "Band"; candidate "Outro" "Band"])
  ∧ (rec_key <$> [candidate "Intro" "Band"; candidate "Outro" "Band"])
      `sublist_of`
      (top_recommendations [sample_track]
         [candidate "Outro" "Band"; candidate "Intro" "Band";
          candidate "intro" "BAND"; candidate "Song" "Artist"]).*1
  ∧ ∀ final item final',
      final_step
        [candidate "Outro" "Band"; candidate "Intro" "Band";
         candidate "intro" "BAND"; candidate "Song" "Artist"] final item
      = Ok final' →
      final' = final
      ∨ ∃ rec, final' = final ++ [rec]
               ∧ rec ∈ [candidate "Outro" "Band"; candidate "Intro" "Band";
                        candidate "intro" "BAND"; candidate "Song" "Artist"]
               ∧ rec_key rec = item.1.
Proof.
  apply (C8_output_keys_distinct [sample_track]).
  vm_compute. reflexivity.
Defined.

(** C9: the search filter reads the first ten hits only, so it returns at
    most ten records and the hits after the tenth do not matter.  Among the
    ten, a hit is passed over exactly when the ratio of its lowercased title
    and the lowercased song name is above 90 and the ratio of its lowercased
    first artist and the lowercased artist name is above 90: the titles of
    the returned records are the titles of the other hits, in their order;
    the step of the loop for such a hit leaves the list as it is; and the
    result is the one for the ten hits without these. *)
Theorem C9_first_ten_hits_filtered (ytmusic_search : string → list SearchResult)
    (fuzz_ratio : string → string → Z) (song_name artist_name track_id : string) :
  (∀ recs,
     get_youtube_music_recommendations ytmusic_search fuzz_ratio
       song_name artist_name track_id = Ok recs →
     length recs ≤ 10
     ∧ rec_title <$> recs
       = res_title <$>
           filter (λ hit, ¬ fuzzy_matches_track fuzz_ratio song_name
                              artist_name hit)
             (take 10 (ytmusic_search (song_name +:+ " " +:+ artist_name)))
     ∧ Forall (λ rec,
         ∃ hit,
           hit ∈ take 10 (ytmusic_search (song_name +:+ " " +:+ artist_name))
           ∧ rec_title rec = res_title hit
           ∧ first_artist hit = Some (rec_artist rec)
           ∧ ¬ ((90 < fuzz_ratio (lower (rec_title rec)) (lower song_name))%Z
                ∧ (90 < fuzz_ratio (lower (rec_artist rec))
                          (lower artist_name))%Z)) recs)
  ∧ (∀ other_search,
       take 10 (other_search (song_name +:+ " " +:+ artist_name))
       = take 10 (ytmusic_search (song_name +:+ " " +:+ artist_name)) →
       get_youtube_music_recommendations other_search fuzz_ratio
         song_name artist_name track_id
       = get_youtube_music_recommendations ytmusic_search fuzz_ratio
           song_name artist_name track_id)
  ∧ (∀ hit artist recommendations,
       first_artist hit = Some artist →
       (90 < fuzz_ratio (lower (res_title hit)) (lower song_name))%Z →
       (90 < fuzz_ratio (lower artist) (lower artist_name))%Z →
       youtube_step fuzz_ratio song_name artist_name track_id
         recommendations hit = Ok recommendations)
  ∧ get_youtube_music_recommendations ytmusic_search fuzz_ratio
      song_name artist_name track_id
    = for_each
        (filter (λ hit, ¬ fuzzy_matches_track fuzz_ratio song_name artist_name
                           hit)
           (take 10 (ytmusic_search (song_name +:+ " " +:+ artist_name))))
        (youtube_step fuzz_ratio song_name artist_name track_id) [].
Proof.
  split_and!.
  - intros recs. rewrite get_youtube_loop. intros Hloop.
    pose proof (youtube_loop_titles _ _ _ _ _ _ _ Hloop) as Htitles.
    apply youtube_loop_Ok in Hloop as (new & -> & Hlen & Hnew).
    simpl in *. split_and!; [|done|].
    + rewrite length_take in Hlen. lia.
    + eapply Forall_impl; [exact Hnew|].
      intros rec (hit & Hin & Htitle & Hartist & Hskip).
      exists hit. apply result_artist_first in Hartist as Hfirst.
      split_and!; [done..|]. intros Hboth.
      assert (fuzzy_matches_track fuzz_ratio song_name artist_name hit)
        as Hmatch%skipped_ratios.
      { exists (rec_artist rec). by rewrite <-Htitle. }
      by rewrite Hskip in Hmatch.
  - intros other Htake. by rewrite !get_youtube_loop, Htake.
  - intros hit artist recommendations Hfirst Htitle Hartist.
    apply youtube_step_skipped, Is_true_true, skipped_ratios.
    by exists artist.
  - rewrite get_youtube_loop, youtube_loop_skip. f_equal.
    apply list_filter_iff. intros hit. by rewrite skipped_ratios.
Qed.

(** Of six hits for "Song" by "Artist", the two whose ratios are both above
    90 give no record; the hit whose title ratio is 90 gives one. *)
Lemma C9_first_ten_hits_filtered_witness :
  get_youtube_music_recommendations boundary_search ratio_table
    "Song" "Artist" "4uLU6hMCjMI75M1A2tKUQC" = Ok boundary_candidates
  ∧ length boundary_candidates ≤ 10
  ∧ rec_title <$> boundary_candidates = ["Song (Live)"; "Song"; "Alpha"; "Song"].
Proof.
  split; [vm_compute; reflexivity|].
  destruct (C9_first_ten_hits_filtered boundary_search ratio_table
              "Song" "Artist" "4uLU6hMCjMI75M1A2tKUQC") as [Hrecs _].
  destruct (Hrecs boundary_candidates) as (Hlen & Htitles & _).
  { vm_compute. reflexivity. }
  split; [exact Hlen|exact Htitles].
Defined.

(** C10: the reader returns one track for each item of the page whose track
    is not null, with "Unknown Song" and "Unknown Artist" for absent names;
    it returns normally exactly when each of these tracks has an id, and
    raises [KeyError] for the key ['id'] exactly when one of them has none. *)
Theorem C10_defaults_and_missing_id (playlist_id : string)
    (sp : string → PlaylistPage) :
  (∀ tracks,
     get_spotify_tracks playlist_id sp = Ok tracks
     ↔ Forall2 reads_track
         (omap item_track (default [] (page_items (sp playlist_id)))) tracks)
  ∧ (get_spotify_tracks playlist_id sp = Raise (KeyError "id")
     ↔ Exists lacks_id (default [] (page_items (sp playlist_id)))).
Proof.
  rewrite get_spotify_tracks_loop.
  set (items := default [] (page_items (sp playlist_id))).
  destruct (spotify_loop items []) as [[Hex ->]|(new & Hnew & ->)].
  - split; [|done]. intros tracks. split; [done|].
    intros Hreads. by apply reads_track_has_id in Hreads.
  - simpl. split.
    + intros tracks. split; [by intros [= <-]|].
      intros Hreads. f_equal. revert Hnew Hreads.
      generalize (omap item_track items). intros objs Hnew.
      revert tracks. induction Hnew as [|o t objs new Ht _ IH];
        intros tracks Hreads.
      * by apply Forall2_nil_inv_l in Hreads.
      * apply Forall2_cons_inv_l in Hreads as (t' & tracks' & Ht' & ? & ->).
        f_equal; [by eapply reads_track_unique|by apply IH].
    + split; [done|]. intros Hex. by apply reads_track_has_id in Hnew.
Qed.

Lemma C10_defaults_and_missing_id_witness :
  get_spotify_tracks "37i9dQZF1DXcBWIGoYBM5M" sample_page = Raise (KeyError "id")
  ∧ get_spotify_tracks "37i9dQZF1DXcBWIGoYBM5M" sample_page_with_ids
    = Ok [mkTrack "Unknown Song" "Unknown Artist" "id1";
          mkTrack "Song" "Artist" "id2";
          mkTrack "Tune" "Unknown Artist" "id3"].
Proof.
  split.
  - apply (C10_defaults_and_missing_id "37i9dQZF1DXcBWIGoYBM5M" sample_page).
    by_evaluation.
  - apply (C10_defaults_and_missing_id "37i9dQZF1DXcBWIGoYBM5M"
             sample_page_with_ids).
    simpl. repeat constructor.
Defined.

(** * The record of each key among well split candidates *)

(** Among candidates that are well split the routine returns, for each key
    of the sorted counter in its order, the first candidate of the list that
    has the key; the later candidates with that key are not returned. *)
Theorem first_candidate_of_each_key (tracks : list Track)
    (recs : list Recommendation) :
  Forall well_split recs →
  filter_and_get_top_recommendations tracks recs
  = Ok (omap (λ item, first_with_key recs item.1)
          (top_recommendations tracks recs))
  ∧ Forall (λ item, is_Some (first_with_key recs item.1))
      (top_recommendations tracks recs).
Proof.
  intros Hws.
  assert (Forall (λ item, two_parts item
                          ∧ is_Some (recovered recs item)
                          ∧ recovered recs item = first_with_key recs item.1)
            (top_recommendations tracks recs)) as Htop.
  { apply Forall_forall. intros item Hin%elem_of_top.
    destruct (recovered_well_split _ _ _ Hws Hin) as [? ?].
    split_and!; [done..|]. by apply (recovered_first_with_key tracks). }
  split.
  - unfold filter_and_get_top_recommendations.
    rewrite final_loop_Ok
      by (eapply Forall_impl; [exact Htop|]; by intros item [? _]).
    simpl. f_equal. apply list_omap_ext, Forall_Forall2_diag.
    eapply Forall_impl; [exact Htop|]. by intros item (_ & _ & ?).
  - eapply Forall_impl; [exact Htop|]. by intros item (_ & ? & <-).
Qed.

Lemma first_candidate_of_each_key_witness :
  filter_and_get_top_recommendations [sample_track]
    [song_A; intro_first; intro_second; song_A; intro_second]
  = Ok [intro_first; song_A].
Proof.
  apply (first_candidate_of_each_key [sample_track]
           [song_A; intro_first; intro_second; song_A; intro_second]).
  by_evaluation.
Defined.

(** * More about [split] *)

Lemma append_same_length (x1 x2 y1 y2 : string) :
  x1 +:+ y1 = x2 +:+ y2 → String.length x1 = String.length x2 →
  x1 = x2 ∧ y1 = y2.
Proof.
  intros Heq Hlen.
  apply append_eq_inv in Heq as (z & -> & ->); [|lia].
  rewrite length_append in Hlen. destruct z; [|simpl in Hlen; lia].
  by rewrite append_nil_r.
Qed.

Lemma has_substring_append (sep s x y : string) :
  has_substring sep s → has_substring sep (x +:+ s +:+ y).
Proof.
  intros (a & b & ->). exists (x +:+ a), (b +:+ y).
  by rewrite !append_assoc.
Qed.

Lemma has_substring_tail (sep : string) (c : ascii) (s : string) :
  has_substring sep s → has_substring sep (String c s).
Proof. intros (a & b & ->). by exists (String c a), b. Qed.

(** No part holds the separator: an occurrence of the separator that starts
    in the part read so far would have ended the part. *)
Lemma split_go_parts_free (sep : string) (cur s : string) :
  sep ≠ "" →
  (∀ x y, cur +:+ s = x +:+ sep +:+ y → String.length cur ≤ String.length x) →
  Forall (λ part, ¬ has_substring sep part) (split_go sep 0 cur s).
Proof.
  intros Hsep. revert cur.
  induction s as [|rest IH|c s Hp IH] using (split_ind sep Hsep);
    intros cur Hcur.
  - constructor; [|constructor]. intros (x & y & Heq).
    specialize (Hcur x y). rewrite append_nil_r in Hcur.
    apply Hcur in Heq as Hlen. rewrite Heq, !length_append in Hlen.
    destruct sep; [done|simpl in Hlen; lia].
  - rewrite split_go_sep by done. constructor.
    + intros (x & y & Heq).
      specialize (Hcur x (y +:+ sep +:+ rest)).
      rewrite Heq, !append_assoc in Hcur. specialize (Hcur eq_refl).
      rewrite !length_append in Hcur.
      destruct sep; [done|simpl in Hcur; lia].
    + apply IH. intros x y _. simpl. lia.
  - rewrite split_go_other by done. apply IH. intros x y Heq.
    rewrite append_assoc, append_cons, append_nil_l in Heq.
    pose proof (Hcur x y Heq) as Hlen.
    rewrite length_append. simpl.
    destruct (decide (String.length cur = String.length x)) as [Hsame|]; [|lia].
    apply append_same_length in Heq as [_ Heq]; [|done].
    assert (String.prefix sep (String c s) = true) as Hp'.
    { apply prefix_true. by exists y. }
    congruence.
Qed.

Lemma split_parts_free (sep s : string) :
  sep ≠ "" → Forall (λ part, ¬ has_substring sep part) (split sep s).
Proof.
  intros Hsep. apply split_go_parts_free; [done|]. intros x y _. simpl. lia.
Qed.

(** A string that does not hold the separator is its own only part. *)
Lemma split_go_free (sep cur s : string) :
  sep ≠ "" → ¬ has_substring sep s → split_go sep 0 cur s = [cur +:+ s].
Proof.
  intros Hsep. revert cur.
  induction s as [|rest IH|c s Hp IH] using (split_ind sep Hsep);
    intros cur Hfree.
  - simpl. by rewrite append_nil_r.
  - destruct Hfree. by exists "", rest.
  - rewrite split_go_other, IH by eauto using has_substring_tail.
    by rewrite append_assoc.
Qed.

Lemma split_free_iff (sep s : string) :
  sep ≠ "" → split sep s = [s] ↔ ¬ has_substring sep s.
Proof.
  intros Hsep. split.
  - intros Hsplit (x & y & ->).
    pose proof (split_length_once sep Hsep x y) as Hlen.
    rewrite Hsplit in Hlen. simpl in Hlen. lia.
  - intros Hfree. unfold split. by rewrite split_go_free.
Qed.

(** ** A separator of one character *)

Lemma prefix_char (c a : ascii) (s : string) :
  String.prefix (String c "") (String a s) = bool_decide (c = a).
Proof.
  simpl. destruct (ascii_dec c a) as [->|Hne].
  - rewrite bool_decide_eq_true_2 by done. by destruct s.
  - by rewrite bool_decide_eq_false_2.
Qed.

Lemma split_go_char (c a : ascii) (cur s : string) :
  split_go (String c "") 0 cur (String a s)
  = if bool_decide (c = a)
    then cur :: split_go (String c "") 0 "" s
    else split_go (String c "") 0 (cur +:+ String a "") s.
Proof.
  change (split_go (String c "") 0 cur (String a s))
    with (if String.prefix (String c "") (String a s)
          then cur :: split_go (String c "") 0 "" s
          else split_go (String c "") 0 (cur +:+ String a "") s).
  by rewrite prefix_char.
Qed.

(** The part in front of the first separator. *)
Lemma split_go_char_head (c : ascii) (cur x rest : string) :
  ¬ has_substring (String c "") x →
  split_go (String c "") 0 cur (x +:+ String c rest)
  = (cur +:+ x) :: split_go (String c "") 0 "" rest.
Proof.
  revert cur. induction x as [|a x IH]; intros cur Hfree.
  - rewrite append_nil_l, split_go_char, bool_decide_eq_true_2 by done.
    by rewrite append_nil_r.
  - rewrite append_cons, split_go_char.
    rewrite bool_decide_eq_false_2.
    + rewrite IH by eauto using has_substring_tail. by rewrite append_assoc.
    + intros ->. apply Hfree. by exists "", x.
Qed.

(** The part behind the last separator. *)
Lemma split_go_char_last (c : ascii) (cur x t : string) :
  last (split_go (String c "") 0 cur (x +:+ String c t))
  = last (split_go (String c "") 0 "" t).
Proof.
  assert (∀ k l, last (k :: split_go (String c "") 0 "" l)
                 = last (split_go (String c "") 0 "" l)) as Hlast.
  { intros k l. pose proof (split_go_nonempty (String c "") 0 "" l) as Hne.
    destruct (split_go (String c "") 0 "" l); [done|apply last_cons_cons]. }
  revert cur. induction x as [|a x IH]; intros cur.
  - by rewrite append_nil_l, split_go_char, bool_decide_eq_true_2, Hlast.
  - rewrite append_cons, split_go_char. case_bool_decide.
    + by rewrite Hlast, IH.
    + apply IH.
Qed.

(** * The playlist id of a link *)

Lemma last_item_split (sep s : string) :
  ∃ part, last_item (split sep s) = Ok part ∧ part ∈ split sep s.
Proof.
  unfold last_item. destruct (last (split sep s)) as [part|] eqn:Hlast.
  - exists part. split; [done|]. by apply last_Some_elem_of.
  - apply last_None in Hlast. by apply split_go_nonempty in Hlast.
Qed.

Lemma first_item_split (sep s : string) :
  sep ≠ "" →
  ∃ part, first_item (split sep s) = Ok part
          ∧ part ∈ split sep s
          ∧ (s = part ∨ ∃ rest, s = part +:+ sep +:+ rest).
Proof.
  intros Hsep. pose proof (split_join sep Hsep s) as Hjoin.
  destruct (split sep s) as [|part l] eqn:Hsplit.
  - by apply split_go_nonempty in Hsplit.
  - exists part. split_and!; [done|left|].
    destruct l as [|part' l]; [by left|right].
    exists (String.concat sep (part' :: l)). by rewrite <-Hjoin.
Qed.

Lemma has_substring_char_app (c : ascii) (a b : string) :
  has_substring (String c "") (a +:+ b) →
  has_substring (String c "") a ∨ has_substring (String c "") b.
Proof.
  induction a as [|h a IH]; [by right|].
  intros (x & y & Heq).
  destruct x as [|h' x]; rewrite ?append_nil_l, ?append_cons in Heq;
    simplify_eq.
  - left. by exists "", a.
  - destruct IH as [Ha|Hb]; [by exists x, y| |by right].
    left. by apply has_substring_tail.
Qed.

Lemma has_substring_char_single (c d : ascii) :
  c ≠ d → ¬ has_substring (String c "") (String d "").
Proof.
  intros Hne (x & y & Heq).
  destruct x as [|h x]; rewrite ?append_nil_l, ?append_cons in Heq;
    simplify_eq.
  by destruct x.
Qed.

Lemma playlist_id_of_segment (base segment : string) :
  ¬ has_substring "/" segment →
  playlist_id_of_link (base +:+ "/" +:+ segment) = first_item (split "?" segment).
Proof.
  intros Hfree. unfold playlist_id_of_link, last_item, split.
  rewrite append_cons, append_nil_l.
  rewrite (split_go_char_last "/" "" base segment).
  by rewrite split_go_free, last_singleton.
Qed.

(** ** The first part *)

(** No occurrence of the separator starts in front of the end of the first
    part. *)
Lemma split_go_first_leftmost (sep cur s part : string) (parts : list string) :
  sep ≠ "" →
  (∀ x y, cur +:+ s = x +:+ sep +:+ y → String.length cur ≤ String.length x) →
  split_go sep 0 cur s = part :: parts →
  ∀ x y, cur +:+ s = x +:+ sep +:+ y → String.length part ≤ String.length x.
Proof.
  intros Hsep. revert cur.
  induction s as [|rest IH|c s Hp IH] using (split_ind sep Hsep);
    intros cur Hcur.
  - simpl. intros [= <- <-]. exact Hcur.
  - rewrite split_go_sep by done. intros [= <- <-]. exact Hcur.
  - rewrite split_go_other by done. intros Hsplit x y Heq.
    apply (IH (cur +:+ String c "")) with (y := y); [|done|].
    + intros x' y' Heq'.
      rewrite append_assoc, append_cons, append_nil_l in Heq'.
      pose proof (Hcur x' y' Heq') as Hlen. rewrite length_append. simpl.
      destruct (decide (String.length cur = String.length x')) as [Hsame|];
        [|lia].
      apply append_same_length in Heq' as [_ Heq']; [|done].
      assert (String.prefix sep (String c s) = true) as Hp'.
      { apply prefix_true. by exists y'. }
      congruence.
    + by rewrite append_assoc, append_cons, append_nil_l.
Qed.

(** A separator that follows a head [x] is the first one found when the
    head, followed by the separator without its last character, does not
    hold the separator. *)
Lemma split_go_first (sep p : string) (l : ascii) (cur x rest : string) :
  sep = p +:+ String l "" →
  ¬ has_substring sep (x +:+ p) →
  split_go sep 0 cur (x +:+ sep +:+ rest)
  = (cur +:+ x) :: split_go sep 0 "" rest.
Proof.
  intros Hsep. assert (sep ≠ "") as Hne.
  { rewrite Hsep. by destruct p. }
  revert cur. induction x as [|c x IH]; intros cur Hfree.
  - by rewrite append_nil_l, split_go_sep, append_nil_r.
  - rewrite append_cons, split_go_other.
    + rewrite IH by eauto using has_substring_tail. by rewrite append_assoc.
    + destruct (String.prefix sep (String c (x +:+ sep +:+ rest))) eqn:Hp;
        [|done].
      apply prefix_true in Hp as [y Hy]. destruct Hfree.
      rewrite <-append_cons in Hy. rewrite Hsep in Hy at 1.
      rewrite <-!append_assoc, !(append_assoc _ (String l "")) in Hy.
      symmetry in Hy. apply append_eq_inv in Hy as (z & Hz & _).
      * exists "", z. by rewrite append_nil_l.
      * rewrite Hsep, !length_append. simpl. lia.
Qed.

(** * More about the counter and the first ten *)

Lemma counter_length (tracks : list Track) (recs : list Recommendation) :
  length (recommendation_count (playlist_songs tracks) recs)
  = size (distinct_counted_keys tracks recs).
Proof.
  rewrite <-(length_fmap fst).
  rewrite <-(size_list_to_set (C:=gset string))
    by apply recommendation_count_inv.
  f_equal. apply set_eq. intros k.
  unfold distinct_counted_keys. rewrite !elem_of_list_to_set.
  apply counter_keys_counted.
Qed.

Lemma counted_key_in_counter (tracks : list Track)
    (recs : list Recommendation) (k : string) :
  k ∈ counted_keys tracks recs →
  (k, occurrence_count tracks recs k)
    ∈ recommendation_count (playlist_songs tracks) recs.
Proof.
  intros ([k' n] & Hk & Hin)%counter_keys_counted%list_elem_of_fmap.
  simpl in Hk. subst k'.
  by pose proof Hin as (_ & _ & <-)%elem_of_counter.
Qed.

Lemma sum_counts_incr (k : string) (d : list (string * nat)) :
  sum_list (incr k d).*2 = S (sum_list d.*2).
Proof.
  induction d as [|[k' n] d IH]; [done|]. cbn [incr].
  destruct (decide (k = k')); rewrite !fmap_cons; unfold sum_list in *;
    cbn [sum_list_with snd]; [done|].
  rewrite IH. lia.
Qed.

Lemma sum_counts_foldl (seen : gset string) (recs : list Recommendation)
    (d : list (string * nat)) :
  sum_list (foldl (count_step seen) d recs).*2
  = sum_list d.*2 + length (filter (λ k, k ∉ seen) (rec_key <$> recs)).
Proof.
  revert d. induction recs as [|rec recs IH]; intros d; [simpl; lia|].
  cbn [foldl]. rewrite IH, fmap_cons, filter_cons.
  unfold count_step. cbv zeta.
  destruct (decide (rec_key rec ∉ seen)); [|done].
  rewrite sum_counts_incr. simpl. lia.
Qed.

Lemma omap_keys_total {A B K : Type} (g : A → option B) (kb : B → K)
    (ka : A → K) (l : list A) :
  Forall (λ x, ∃ y, g x = Some y ∧ kb y = ka x) l →
  kb <$> omap g l = ka <$> l.
Proof.
  induction 1 as [|x l (y & Hy & Hk) _ IH]; [done|].
  change (omap g (x :: l))
    with (match g x with Some y => y :: omap g l | None => omap g l end).
  by rewrite Hy, !fmap_cons, Hk, IH.
Qed.

(** * More about the search filter *)

Lemma youtube_step_cases (fuzz_ratio : string → string → Z)
    (song_name artist_name track_id : string)
    (recommendations : list Recommendation) (hit : SearchResult) :
  (fails_on fuzz_ratio song_name artist_name hit
   ∧ youtube_step fuzz_ratio song_name artist_name track_id recommendations hit
     = Raise IndexError)
  ∨ (¬ fails_on fuzz_ratio song_name artist_name hit
     ∧ skipped fuzz_ratio song_name artist_name hit = true
     ∧ youtube_step fuzz_ratio song_name artist_name track_id recommendations hit
       = Ok recommendations)
  ∨ (¬ fails_on fuzz_ratio song_name artist_name hit
     ∧ skipped fuzz_ratio song_name artist_name hit = false
     ∧ ∃ rec, record_of track_id hit rec
              ∧ youtube_step fuzz_ratio song_name artist_name track_id
                  recommendations hit = Ok (recommendations ++ [rec])).
Proof.
  unfold fails_on, youtube_step, skipped, record_of, result_artist,
    result_thumbnail.
  destruct (res_artists hit) as [[|artist artists]|]; simpl.
  - left. split; [by left|done].
  - destruct (fuzzy_match _ _ _ _ artist) eqn:Hfuzzy.
    + right. left. split_and!; [|done..]. by intros [?|[_ ?]].
    + destruct (res_thumbnails hit) as [[|url urls]|]; simpl.
      * left. split; [by right|done].
      * right. right. split_and!; [by intros [?|[? _]]|done|].
        eexists. split; [|done]. by split_and!.
      * right. right. split_and!; [by intros [?|[? _]]|done|].
        eexists. split; [|done]. by split_and!.
  - destruct (fuzzy_match _ _ _ _ "Unknown Artist") eqn:Hfuzzy.
    + right. left. split_and!; [|done..]. by intros [?|[_ ?]].
    + destruct (res_thumbnails hit) as [[|url urls]|]; simpl.
      * left. split; [by right|done].
      * right. right. split_and!; [by intros [?|[? _]]|done|].
        eexists. split; [|done]. by split_and!.
      * right. right. split_and!; [by intros [?|[? _]]|done|].
        eexists. split; [|done]. by split_and!.
Qed.

Lemma youtube_loop_cases (fuzz_ratio : string → string → Z)
    (song_name artist_name track_id : string) (hits : list SearchResult)
    (recommendations : list Recommendation) :
  (Exists (fails_on fuzz_ratio song_name artist_name) hits
   ∧ for_each hits (youtube_step fuzz_ratio song_name artist_name track_id)
       recommendations = Raise IndexError)
  ∨ (Forall (λ hit, ¬ fails_on fuzz_ratio song_name artist_name hit) hits
     ∧ ∃ new,
         Forall2 (record_of track_id)
           (filter (λ hit, ¬ skipped fuzz_ratio song_name artist_name hit) hits)
           new
         ∧ for_each hits (youtube_step fuzz_ratio song_name artist_name track_id)
             recommendations = Ok (recommendations ++ new)).
Proof.
  revert recommendations. induction hits as [|hit hits IH];
    intros recommendations.
  - right. split; [constructor|]. exists []. split; [constructor|].
    simpl. by rewrite app_nil_r.
  - cbn [for_each]. rewrite filter_cons.
    destruct (youtube_step_cases fuzz_ratio song_name artist_name track_id
                recommendations hit)
      as [[Hfail ->]|[(Hok & Hskip & ->)|(Hok & Hskip & rec & Hrec & ->)]];
      simpl.
    + left. split; [by left|done].
    + rewrite Hskip. simpl.
      destruct (IH recommendations) as [[Hex ->]|(Hall & new & Hnew & ->)].
      * left. split; [by right|done].
      * right. split; [by constructor|]. by exists new.
    + rewrite Hskip. simpl.
      destruct (IH (recommendations ++ [rec]))
        as [[Hex ->]|(Hall & new & Hnew & ->)].
      * left. split; [by right|done].
      * right. split; [by constructor|]. exists (rec :: new).
        split; [by constructor|]. by rewrite <-app_assoc.
Qed.

Lemma not_Exists_Forall_not {A : Type} (P : A → Prop) (l : list A) :
  Forall (λ x, ¬ P x) l → ¬ Exists P l.
Proof.
  intros Hall (x & Hx & HP)%Exists_exists.
  rewrite Forall_forall in Hall. by apply (Hall x).
Qed.

(** * Facts about the request handlers *)

Lemma extend_step_loop (services : Services)
    (all_recommendations : list Recommendation) (track : Track) :
  extend_step services all_recommendations track
  = (recs ← for_each
              (take 10 (ytmusic_search services
                          (track_name track +:+ " " +:+ track_artist track)))
              (youtube_step (fuzz_ratio services) (track_name track)
                 (track_artist track) (track_id track)) [];
     Ok (all_recommendations ++ recs)).
Proof. unfold extend_step. cbv zeta. by rewrite get_youtube_loop. Qed.

Lemma gather_cases (services : Services) (tracks : list Track)
    (all_recommendations : list Recommendation) :
  (Exists (λ track,
     Exists (fails_on (fuzz_ratio services) (track_name track)
               (track_artist track))
       (take 10 (ytmusic_search services
                   (track_name track +:+ " " +:+ track_artist track)))) tracks
   ∧ for_each tracks (extend_step services) all_recommendations
     = Raise IndexError)
  ∨ (∃ per_track,
       Forall2 (λ track recs,
                  Forall2 (record_of (track_id track))
                    (kept_hits services track) recs) tracks per_track
       ∧ for_each tracks (extend_step services) all_recommendations
         = Ok (all_recommendations ++ concat per_track)).
Proof.
  revert all_recommendations.
  induction tracks as [|track tracks IH]; intros all_recommendations.
  - right. exists []. split; [constructor|]. simpl. by rewrite app_nil_r.
  - cbn [for_each]. rewrite extend_step_loop.
    destruct (youtube_loop_cases (fuzz_ratio services) (track_name track)
                (track_artist track) (track_id track)
                (take 10 (ytmusic_search services
                            (track_name track +:+ " " +:+ track_artist track)))
                [])
      as [[Hex ->]|(_ & new & Hnew & ->)]; simpl.
    + left. split; [by left|done].
    + destruct (IH (all_recommendations ++ new))
        as [[Hex ->]|(per_track & Hper & ->)].
      * left. split; [by right|done].
      * right. exists (new :: per_track). split; [by constructor|].
        simpl. by rewrite <-app_assoc.
Qed.

Lemma gather_Ok (services : Services) (tracks : list Track)
    (all_recommendations : list Recommendation) :
  gather_recommendations services tracks = Ok all_recommendations →
  ∃ per_track,
    all_recommendations = concat per_track
    ∧ Forall2 (λ track recs,
                 Forall2 (record_of (track_id track))
                   (kept_hits services track) recs) tracks per_track.
Proof.
  unfold gather_recommendations.
  destruct (gather_cases services tracks [])
    as [[_ ->]|(per_track & Hper & ->)]; [done|].
  intros [= <-]. by exists per_track.
Qed.

Lemma kept_hits_length (services : Services) (track : Track) :
  length (kept_hits services track) ≤ 10.
Proof.
  unfold kept_hits. etrans; [apply length_filter|].
  rewrite length_take. lia.
Qed.

Lemma per_track_length (services : Services) (tracks : list Track)
    (per_track : list (list Recommendation)) :
  Forall2 (λ track recs,
             Forall2 (record_of (track_id track))
               (kept_hits services track) recs) tracks per_track →
  length (concat per_track) ≤ 10 * length tracks.
Proof.
  induction 1 as [|track recs tracks per_track Hrecs _ IH]; [done|].
  simpl. rewrite length_app.
  apply Forall2_length in Hrecs.
  pose proof (kept_hits_length services track). lia.
Qed.

Lemma per_track_url (services : Services) (tracks : list Track)
    (per_track : list (list Recommendation)) (rec : Recommendation) :
  Forall2 (λ track recs,
             Forall2 (record_of (track_id track))
               (kept_hits services track) recs) tracks per_track →
  rec ∈ concat per_track →
  Exists (λ track, rec_spotify_url rec = track_url (track_id track)) tracks.
Proof.
  induction 1 as [|track recs tracks per_track Hrecs _ IH]; simpl.
  - by intros ?%elem_of_nil.
  - rewrite elem_of_app. intros [Hin|Hin]; [left|right; by apply IH].
    apply list_elem_of_lookup in Hin as [i Hi].
    destruct (Forall2_lookup_r _ _ _ _ _ Hrecs Hi) as (hit & _ & Hrec).
    by destruct Hrec as (_ & _ & _ & _ & _ & ?).
Qed.

(** What the ranking routine returns: facts shared by the statements about
    [callback]. *)
Lemma filter_output_facts (tracks : list Track)
    (recs out : list Recommendation) :
  filter_and_get_top_recommendations tracks recs = Ok out →
  length out ≤ 10
  ∧ NoDup (rec_key <$> out)
  ∧ Forall (λ rec, rec ∈ recs
                   ∧ ¬ Exists (λ track, track_key track = rec_key rec) tracks)
      out.
Proof.
  intros [_ ->]%filter_Ok_inv. split_and!.
  - etrans; [apply length_omap_le|].
    unfold top_recommendations. rewrite length_take. lia.
  - eapply sublist_NoDup; [apply top_keys_NoDup|].
    apply omap_keys_sublist. intros item rec Hrec.
    by apply recovered_Some in Hrec as [_ ?].
  - apply Forall_forall.
    intros rec (item & Hitem & Hrec)%list_elem_of_omap.
    apply recovered_Some in Hrec as [Hin Hkey]. split; [done|].
    destruct item as [k n]. simpl in Hkey. subst k.
    apply elem_of_top, elem_of_counter in Hitem as (_ & Hseen & _).
    intros (t & ? & ?)%Exists_exists. apply Hseen, elem_of_playlist_songs.
    by exists t.
Qed.

Lemma truthy_Some (x : option string) (s : string) :
  truthy x = Some s → x = Some s ∧ s ≠ "".
Proof. destruct x as [[|c x]|]; simpl; intros [= <-]; done. Qed.

(** The path of [callback] that ends with recommendations. *)
Lemma callback_recommendations_inv (services : Services)
    (session_link code : option string) (err : option string)
    (top : list Recommendation) :
  callback services session_link code = RenderIndex err (Some top) →
  err = None
  ∧ ∃ link c token tok id tracks all,
      truthy session_link = Some link
      ∧ truthy code = Some c
      ∧ get_access_token services c = Some token
      ∧ access_token token = Some tok
      ∧ playlist_id_of_link link = Ok id
      ∧ get_spotify_tracks id (spotify_client services tok) = Ok tracks
      ∧ tracks ≠ []
      ∧ gather_recommendations services tracks = Ok all
      ∧ filter_and_get_top_recommendations tracks all = Ok top.
Proof.
  unfold callback, callback_try, handle_exception, render_error.
  destruct (truthy session_link) as [link|] eqn:Hlink; [|done].
  destruct (truthy code) as [c|] eqn:Hcode; [|done].
  destruct (get_access_token services c) as [token|] eqn:Htoken; [|done].
  destruct (access_token token) as [tok|] eqn:Htok; [|done]. simpl.
  destruct (playlist_id_of_link link) as [id|] eqn:Hid; [|done]. simpl.
  destruct (get_spotify_tracks id (spotify_client services tok))
    as [tracks|] eqn:Htracks; [|done]. simpl.
  destruct tracks as [|track tracks]; [done|].
  destruct (gather_recommendations services (track :: tracks))
    as [all|] eqn:Hall; [|done]. simpl.
  destruct (filter_and_get_top_recommendations (track :: tracks) all)
    as [top'|] eqn:Htop; [|done]. simpl.
  intros [= <- <-]. split; [done|].
  by exists link, c, token, tok, id, (track :: tracks), all.
Qed.

(** The path of [callback] behind the token, as a function of what the
    playlist reader, the loop of searches and the ranking routine give. *)
Lemma callback_after_token (services : Services)
    (session_link code : option string) (link c tok id : string)
    (token : TokenInfo) :
  truthy session_link = Some link →
  truthy code = Some c →
  get_access_token services c = Some token →
  access_token token = Some tok →
  playlist_id_of_link link = Ok id →
  callback services session_link code
  = handle_exception services
      (spotify_tracks ← get_spotify_tracks id (spotify_client services tok);
       match spotify_tracks with
       | [] => Ok (render_error "No tracks found in the playlist.")
       | _ =>
           all_recommendations ← gather_recommendations services spotify_tracks;
           top ← filter_and_get_top_recommendations spotify_tracks
                  all_recommendations;
           Ok (RenderIndex None (Some top))
       end).
Proof.
  intros Hlink Hcode Htoken Htok Hid. unfold callback, callback_try.
  by rewrite Hlink, Hcode, Htoken, Htok, Hid.
Qed.

(** * Further properties *)

(** The playlist id is always found and holds neither a slash nor a question
    mark.  For a link that ends in a segment without slash and question
    mark, alone or followed by a question mark and a query without slash,
    the id is that segment. *)
Theorem playlist_id_is_last_segment (playlist_link : string) :
  (∃ id, playlist_id_of_link playlist_link = Ok id
         ∧ ¬ has_substring "/" id ∧ ¬ has_substring "?" id)
  ∧ ∀ base id,
      ¬ has_substring "/" id → ¬ has_substring "?" id →
      (playlist_link = base +:+ "/" +:+ id →
       playlist_id_of_link playlist_link = Ok id)
      ∧ ∀ query,
          ¬ has_substring "/" query →
          playlist_link = base +:+ "/" +:+ id +:+ "?" +:+ query →
          playlist_id_of_link playlist_link = Ok id.
Proof.
  split.
  - unfold playlist_id_of_link.
    destruct (last_item_split "/" playlist_link) as (part & -> & Hpart).
    simpl.
    destruct (first_item_split "?" part) as (id & -> & Hid & Hcut); [done|].
    exists id. split_and!; [done| |].
    + pose proof (split_parts_free "/" playlist_link) as Hfree.
      rewrite Forall_forall in Hfree. intros Hslash.
      apply (Hfree ltac:(done) part Hpart).
      destruct Hcut as [->|[rest ->]]; [done|].
      by apply (has_substring_append _ _ "").
    + pose proof (split_parts_free "?" part) as Hfree.
      rewrite Forall_forall in Hfree. by apply Hfree.
  - intros base id Hslash Hmark. split.
    + intros ->. rewrite playlist_id_of_segment by done.
      unfold split. by rewrite split_go_free.
    + intros query Hquery ->. rewrite playlist_id_of_segment.
      * unfold split. rewrite append_cons, append_nil_l.
        by rewrite (split_go_char_head "?" "" id query).
      * intros [?|[Hmark'|?]%has_substring_char_app]%has_substring_char_app;
          [done| |done].
        by apply (has_substring_char_single "/" "?") in Hmark'.
Qed.

Lemma playlist_id_is_last_segment_witness :
  playlist_id_of_link
    "https://open.spotify.com/playlist/37i9dQZF1DXcBWIGoYBM5M?si=0a1b2c&nd=1"
  = Ok "37i9dQZF1DXcBWIGoYBM5M".
Proof.
  apply (playlist_id_is_last_segment
           "https://open.spotify.com/playlist/37i9dQZF1DXcBWIGoYBM5M?si=0a1b2c&nd=1")
    with (base := "https://open.spotify.com/playlist")
         (query := "si=0a1b2c&nd=1").
  - by apply split_free_iff.
  - by apply split_free_iff.
  - by apply split_free_iff.
  - reflexivity.
Defined.

(** The key of a candidate splits into two parts or more, and the parts
    joined by the separator give the key back.  The split gives back the
    lowercased title and artist exactly when the lowercased title followed
    by [" by"] does not hold the separator and the lowercased artist does
    not hold it. *)
Theorem key_splits_back (rec : Recommendation) :
  2 ≤ length (split BY (rec_key rec))
  ∧ String.concat BY (split BY (rec_key rec)) = rec_key rec
  ∧ (well_split rec
     ↔ ¬ has_substring BY (lower (rec_title rec) +:+ " by")
       ∧ ¬ has_substring BY (lower (rec_artist rec))).
Proof.
  split_and!.
  - unfold rec_key. by apply split_length_once.
  - by apply split_join.
  - unfold well_split, rec_key.
    set (title := lower (rec_title rec)). set (artist := lower (rec_artist rec)).
    split.
    + intros Hsplit. split.
      * intros (x & y & Heq).
        assert (String.length title ≤ String.length x) as Hlen.
        { apply (split_go_first_leftmost BY "" (title +:+ BY +:+ artist)
                   title [artist]) with (y := y +:+ " " +:+ artist);
            [done| |done|].
          - intros ? ? _. simpl. lia.
          - rewrite append_nil_l.
            change BY with (" by" +:+ " ") at 1.
            rewrite <-!append_assoc, Heq. by rewrite !append_assoc. }
        apply (f_equal String.length) in Heq.
        rewrite !length_append in Heq. simpl in Heq. lia.
      * pose proof (split_parts_free BY (title +:+ BY +:+ artist)) as Hfree.
        rewrite Hsplit, Forall_forall in Hfree. apply Hfree; [done|].
        set_solver.
    + intros [Htitle Hartist]. unfold split.
      rewrite (split_go_first BY " by" " ") by done.
      by rewrite split_go_free.
Qed.

(** The counts of the counter add up to the number of candidates whose key
    is not a key of the playlist, and each of them is at least one. *)
Theorem counts_add_up (tracks : list Track) (recs : list Recommendation) :
  sum_list (recommendation_count (playlist_songs tracks) recs).*2
  = length (counted_keys tracks recs)
  ∧ Forall (λ item, 1 ≤ item.2)
      (recommendation_count (playlist_songs tracks) recs).
Proof.
  split.
  - unfold recommendation_count. by rewrite sum_counts_foldl.
  - apply Forall_forall. intros [k n] Hin. simpl.
    assert (k ∈ counted_keys tracks recs) as Hk.
    { apply counter_keys_counted, list_elem_of_fmap. by exists (k, n). }
    apply elem_of_counter in Hin as (_ & _ & ->).
    by apply occurrences_pos.
Qed.

(** Every returned record is one of the candidates, and its key is not the
    key of a playlist track. *)
Theorem output_from_candidates (tracks : list Track)
    (recs out : list Recommendation) :
  filter_and_get_top_recommendations tracks recs = Ok out →
  Forall (λ rec, rec ∈ recs
                 ∧ ¬ Exists (λ track, track_key track = rec_key rec) tracks)
    out.
Proof.
  intros [_ ->]%filter_Ok_inv. apply Forall_forall.
  intros rec (item & Hitem & Hrec)%list_elem_of_omap.
  apply recovered_Some in Hrec as [Hin Hkey]. split; [done|].
  destruct item as [k n]. simpl in Hkey. subst k.
  apply elem_of_top, elem_of_counter in Hitem as (_ & Hseen & _).
  intros (t & ? & ?)%Exists_exists. apply Hseen, elem_of_playlist_songs.
  by exists t.
Qed.

Lemma output_from_candidates_witness :
  Forall (λ rec, rec ∈ [song_A; candidate "SONG" "artist"; intro_first;
                        intro_second]
                 ∧ ¬ Exists (λ track, track_key track = rec_key rec)
                       [sample_track])
    [intro_first; song_A].
Proof.
  apply (output_from_candidates [sample_track]
           [song_A; candidate "SONG" "artist"; intro_first; intro_second]).
  vm_compute. reflexivity.
Defined.

(** A counted key is left out of the first ten only when there are ten, and
    then its count is not greater than the count of any of the ten, nor than
    the count of any returned record. *)
Theorem first_ten_are_most_counted (tracks : list Track)
    (recs : list Recommendation) (k : string) :
  k ∈ counted_keys tracks recs →
  k ∉ (top_recommendations tracks recs).*1 →
  length (top_recommendations tracks recs) = 10
  ∧ (∀ item, item ∈ top_recommendations tracks recs →
       occurrence_count tracks recs k ≤ item.2)
  ∧ ∀ out rec,
      filter_and_get_top_recommendations tracks recs = Ok out →
      rec ∈ out →
      occurrence_count tracks recs k
      ≤ occurrence_count tracks recs (rec_key rec).
Proof.
  intros Hk Hnot.
  set (sorted := sorted_desc (recommendation_count (playlist_songs tracks) recs)).
  assert ((k, occurrence_count tracks recs k) ∈ drop 10 sorted) as Hdrop.
  { apply counted_key_in_counter in Hk.
    rewrite <-(sorted_desc_perm _) in Hk. fold sorted in Hk.
    rewrite <-(take_drop 10 sorted), elem_of_app in Hk.
    destruct Hk as [Hk|Hk]; [|done].
    destruct Hnot. apply list_elem_of_fmap. by eexists (_, _). }
  assert (∀ item, item ∈ top_recommendations tracks recs →
            occurrence_count tracks recs k ≤ item.2) as Htop.
  { intros item Hitem.
    pose proof (sorted_desc_sorted
                  (recommendation_count (playlist_songs tracks) recs)) as Hs.
    fold sorted in Hs. rewrite <-(take_drop 10 sorted) in Hs.
    apply (StronglySorted_app_1_elem_of _ _ _ _ _ Hs Hitem Hdrop). }
  split_and!; [|done|].
  - unfold top_recommendations. fold sorted. rewrite length_take.
    apply list_elem_of_lookup in Hdrop as [i Hi].
    apply lookup_lt_Some in Hi. rewrite length_drop in Hi. lia.
  - intros out rec [_ ->]%filter_Ok_inv
      (item & Hitem & Hrec)%list_elem_of_omap.
    apply (recovered_top tracks) in Hrec as Heq; [|done].
    specialize (Htop item Hitem). by rewrite Heq in Htop.
Qed.

Lemma first_ten_are_most_counted_witness :
  length (top_recommendations [sample_track]
            (twelve_candidates ++ [candidate "TWELVE" "band"])) = 10.
Proof.
  apply (first_ten_are_most_counted [sample_track]
           (twelve_candidates ++ [candidate "TWELVE" "band"])
           "eleven by band").
  - by_evaluation.
  - by_evaluation.
Defined.

(** Among candidates that are well split the routine returns one record for
    each of the first ten keys of the sorted counter: ten records, or as many
    as there are counted keys; with ten counted keys or fewer, every
    candidate whose key is not the key of a playlist track has its key among
    the returned records. *)
Theorem well_split_candidates_all_ranked (tracks : list Track)
    (recs : list Recommendation) :
  Forall well_split recs →
  ∃ out,
    filter_and_get_top_recommendations tracks recs = Ok out
    ∧ rec_key <$> out = (top_recommendations tracks recs).*1
    ∧ length out = 10 `min` size (distinct_counted_keys tracks recs)
    ∧ (size (distinct_counted_keys tracks recs) ≤ 10 →
       ∀ rec, rec ∈ recs →
         ¬ Exists (λ track, track_key track = rec_key rec) tracks →
         rec_key rec ∈ rec_key <$> out).
Proof.
  intros Hws.
  assert (Forall (λ item, two_parts item
                          ∧ ∃ rec, recovered recs item = Some rec
                                   ∧ rec_key rec = item.1)
            (top_recommendations tracks recs)) as Htop.
  { apply Forall_forall. intros item Hin%elem_of_top.
    destruct (recovered_well_split _ _ _ Hws Hin) as [? [rec Hrec]].
    split; [done|]. exists rec. split; [done|].
    by apply recovered_Some in Hrec as [_ ?]. }
  assert (rec_key <$> omap (recovered recs) (top_recommendations tracks recs)
          = (top_recommendations tracks recs).*1) as Hkeys.
  { apply omap_keys_total. eapply Forall_impl; [exact Htop|].
    by intros item [_ ?]. }
  exists (omap (recovered recs) (top_recommendations tracks recs)).
  split_and!; [|done| |].
  - unfold filter_and_get_top_recommendations.
    rewrite final_loop_Ok
      by (eapply Forall_impl; [exact Htop|]; by intros item [? _]).
    done.
  - rewrite <-(length_fmap rec_key), Hkeys, length_fmap.
    unfold top_recommendations.
    by rewrite length_take, (Permutation_length (sorted_desc_perm _)),
      counter_length.
  - intros Hsize rec Hrec Hnot. rewrite Hkeys. unfold top_recommendations.
    rewrite take_ge
      by (by rewrite (Permutation_length (sorted_desc_perm _)), counter_length).
    rewrite sorted_desc_perm. apply counter_keys_counted.
    unfold counted_keys. apply list_elem_of_filter. split.
    + intros (t & ? & ?)%elem_of_playlist_songs. apply Hnot, Exists_exists.
      by exists t.
    + apply list_elem_of_fmap. by exists rec.
Qed.

Lemma well_split_candidates_all_ranked_witness :
  ∃ out,
    filter_and_get_top_recommendations [sample_track]
      (twelve_candidates ++ [candidate "SONG" "artist"]) = Ok out
    ∧ rec_key <$> out
      = (top_recommendations [sample_track]
           (twelve_candidates ++ [candidate "SONG" "artist"])).*1
    ∧ length out
      = 10 `min` size (distinct_counted_keys [sample_track]
                         (twelve_candidates ++ [candidate "SONG" "artist"]))
    ∧ (size (distinct_counted_keys [sample_track]
               (twelve_candidates ++ [candidate "SONG" "artist"])) ≤ 10 →
       ∀ rec, rec ∈ twelve_candidates ++ [candidate "SONG" "artist"] →
         ¬ Exists (λ track, track_key track = rec_key rec) [sample_track] →
         rec_key rec ∈ rec_key <$> out).
Proof.
  apply (well_split_candidates_all_ranked [sample_track]
           (twelve_candidates ++ [candidate "SONG" "artist"])).
  by_evaluation.
Defined.

(** The search filter returns normally exactly when none of the first ten
    hits has an empty list of artists, or an empty list of thumbnails
    without being passed over; otherwise it raises [IndexError]. *)
Theorem search_filter_raises (search : string → list SearchResult)
    (ratio : string → string → Z) (song_name artist_name track_id : string) :
  ((∃ recs, get_youtube_music_recommendations search ratio
              song_name artist_name track_id = Ok recs)
   ↔ Forall (λ hit, ¬ fails_on ratio song_name artist_name hit)
       (take 10 (search (song_name +:+ " " +:+ artist_name))))
  ∧ (get_youtube_music_recommendations search ratio
       song_name artist_name track_id = Raise IndexError
     ↔ Exists (fails_on ratio song_name artist_name)
         (take 10 (search (song_name +:+ " " +:+ artist_name))))
  ∧ ∀ e, get_youtube_music_recommendations search ratio
           song_name artist_name track_id = Raise e → e = IndexError.
Proof.
  rewrite get_youtube_loop.
  destruct (youtube_loop_cases ratio song_name artist_name track_id
              (take 10 (search (song_name +:+ " " +:+ artist_name))) [])
    as [[Hex ->]|(Hall & new & _ & ->)].
  - split_and!; [|done|by intros e [= <-]].
    split; [by intros [? ?]|]. intros Hall.
    by apply not_Exists_Forall_not in Hall.
  - split_and!; [|split; [done|]|done].
    + split; [done|]. intros _. by eexists.
    + intros Hex. by apply not_Exists_Forall_not in Hall.
Qed.

(** A list that the search filter returns holds one record for each of the
    first ten hits that is not passed over, in the order of the hits: title,
    first artist and first thumbnail of the hit, ["N/A"] and ["0"] for an
    absent album name and view count, and the address of the track. *)
Theorem search_filter_records (search : string → list SearchResult)
    (ratio : string → string → Z) (song_name artist_name track_id : string)
    (recs : list Recommendation) :
  get_youtube_music_recommendations search ratio song_name artist_name track_id
  = Ok recs →
  Forall2 (record_of track_id)
    (filter (λ hit, ¬ skipped ratio song_name artist_name hit)
       (take 10 (search (song_name +:+ " " +:+ artist_name))))
    recs.
Proof.
  rewrite get_youtube_loop.
  destruct (youtube_loop_cases ratio song_name artist_name track_id
              (take 10 (search (song_name +:+ " " +:+ artist_name))) [])
    as [[Hex ->]|(Hall & new & Hnew & ->)]; [done|].
  by intros [= <-].
Qed.

Lemma search_filter_raises_witness :
  get_youtube_music_recommendations broken_search ratio_by_equality
    "Song" "Artist" "id1" = Raise IndexError.
Proof.
  apply (search_filter_raises broken_search ratio_by_equality
           "Song" "Artist" "id1").
  right. left. by left.
Defined.

Lemma search_filter_records_witness :
  Forall2 (record_of "id1")
    (filter (λ hit, ¬ skipped ratio_by_equality "Song" "Artist" hit)
       (take 10 (full_search ("Song" +:+ " " +:+ "Artist"))))
    [mkRec "Alpha" "Ann" "First Album" (Some "https://img.example/a60.jpg")
       "1.2M" "https://open.spotify.com/track/id1";
     mkRec "Beta" "Unknown Artist" "N/A" None "0"
       "https://open.spotify.com/track/id1"].
Proof.
  apply (search_filter_records full_search ratio_by_equality
           "Song" "Artist" "id1").
  vm_compute. reflexivity.
Defined.

(** The candidates of a playlist are the records of its tracks, track after
    track in the order of the playlist: for each track one record for each
    hit that is read and not passed over.  So there are at most ten for each
    track, and each carries the address of a track of the playlist. *)
Theorem gathered_candidates (services : Services) (tracks : list Track)
    (all_recommendations : list Recommendation) :
  gather_recommendations services tracks = Ok all_recommendations →
  (∃ per_track,
     all_recommendations = concat per_track
     ∧ Forall2 (λ track recs,
                  Forall2 (record_of (track_id track))
                    (kept_hits services track) recs) tracks per_track)
  ∧ length all_recommendations ≤ 10 * length tracks
  ∧ Forall (λ rec,
              Exists (λ track, rec_spotify_url rec = track_url (track_id track))
                tracks) all_recommendations.
Proof.
  intros (per_track & -> & Hper)%gather_Ok. split_and!.
  - by exists per_track.
  - by eapply per_track_length.
  - apply Forall_forall. intros rec Hrec. by eapply per_track_url.
Qed.

Lemma gathered_candidates_witness :
  length gamma_candidates ≤ 10 * length [gamma_track]
  ∧ Forall (λ rec,
              Exists (λ track, rec_spotify_url rec = track_url (track_id track))
                [gamma_track]) gamma_candidates.
Proof.
  apply (gathered_candidates (sample_services sample_page_with_ids)
           [gamma_track] gamma_candidates).
  vm_compute. reflexivity.
Defined.

(** When [callback] shows recommendations it shows no error.  There are at
    most ten, with pairwise distinct keys; they were ranked against the
    tracks of the playlist named by the link of the session, which are not
    empty; none has the key of one of these tracks, and each carries the
    address of one of them. *)
Theorem callback_recommendations (services : Services)
    (session_link code : option string) (err : option string)
    (top : list Recommendation) :
  callback services session_link code = RenderIndex err (Some top) →
  err = None
  ∧ length top ≤ 10
  ∧ NoDup (rec_key <$> top)
  ∧ ∃ link tok id tracks,
      truthy session_link = Some link
      ∧ playlist_id_of_link link = Ok id
      ∧ get_spotify_tracks id (spotify_client services tok) = Ok tracks
      ∧ tracks ≠ []
      ∧ Forall (λ rec,
                  ¬ Exists (λ track, track_key track = rec_key rec) tracks
                  ∧ Exists (λ track,
                              rec_spotify_url rec = track_url (track_id track))
                      tracks) top.
Proof.
  intros (-> & link & c & token & tok & id & tracks & all & Hlink & _ & _ & _
          & Hid & Htracks & Hne & Hall & Htop)%callback_recommendations_inv.
  apply filter_output_facts in Htop as (Hlen & Hnodup & Hout).
  apply gather_Ok in Hall as (per_track & -> & Hper).
  split_and!; [done..|].
  exists link, tok, id, tracks. split_and!; [done..|].
  eapply Forall_impl; [exact Hout|]. intros rec [Hin Hkey]. split; [done|].
  by eapply per_track_url.
Qed.

Lemma callback_recommendations_witness :
  length sample_top ≤ 10 ∧ NoDup (rec_key <$> sample_top).
Proof.
  destruct (callback_recommendations (sample_services sample_page_with_ids)
              (Some sample_link) (Some "AQBx7") None sample_top)
    as (_ & Hlen & Hnodup & _).
  { vm_compute. reflexivity. }
  by split.
Defined.

(** Behind the token, [callback] shows an error and no recommendations as
    soon as one step raises: [KeyError] when a track of the page has no id,
    [IndexError] when a search of a track has a hit with an empty list,
    [ValueError] when one of the first ten keys does not split into two
    parts.  A page whose tracks are all null gives "No tracks found in the
    playlist." *)
Theorem callback_errors (services : Services)
    (session_link code : option string) (link c tok id : string)
    (token : TokenInfo) :
  truthy session_link = Some link →
  truthy code = Some c →
  get_access_token services c = Some token →
  access_token token = Some tok →
  playlist_id_of_link link = Ok id →
  (Exists lacks_id (default [] (page_items (spotify_client services tok id))) →
   callback services session_link code
   = render_error ("Error: " +:+ str_exception services (KeyError "id")))
  ∧ (Forall (λ item, item_track item = None)
       (default [] (page_items (spotify_client services tok id))) →
     callback services session_link code
     = render_error "No tracks found in the playlist.")
  ∧ ∀ tracks,
      get_spotify_tracks id (spotify_client services tok) = Ok tracks →
      tracks ≠ [] →
      (Exists (λ track,
         Exists (fails_on (fuzz_ratio services) (track_name track)
                   (track_artist track))
           (take 10 (ytmusic_search services
                       (track_name track +:+ " " +:+ track_artist track))))
         tracks →
       callback services session_link code
       = render_error ("Error: " +:+ str_exception services IndexError))
      ∧ ∀ all,
          gather_recommendations services tracks = Ok all →
          Exists (λ item, length (split BY item.1) ≠ 2)
            (top_recommendations tracks all) →
          callback services session_link code
          = render_error ("Error: " +:+ str_exception services ValueError).
Proof.
  intros Hlink Hcode Htoken Htok Hid.
  rewrite (callback_after_token services session_link code link c tok id token)
    by done.
  rewrite get_spotify_tracks_loop.
  set (items := default [] (page_items (spotify_client services tok id))).
  split_and!.
  - intros Hex.
    destruct (spotify_loop items []) as [[_ ->]|(new & Hnew & _)]; [done|].
    by apply reads_track_has_id in Hnew.
  - intros Hnull.
    destruct (spotify_loop items []) as [[Hex _]|(new & Hnew & ->)].
    + apply Exists_exists in Hex as (item & Hin & track & Htrack & _).
      rewrite Forall_forall in Hnull. rewrite (Hnull item Hin) in Htrack.
      done.
    + assert (omap item_track items = []) as Hnone.
      { clear Hnew. induction Hnull as [|item items' Hitem _ IH]; [done|].
        simpl. by rewrite Hitem. }
      rewrite Hnone in Hnew. apply Forall2_nil_inv_l in Hnew as ->. done.
  - intros tracks -> Hne. simpl.
    destruct tracks as [|track tracks]; [done|]. split.
    + intros Hex. unfold gather_recommendations.
      destruct (gather_cases services (track :: tracks) [])
        as [[_ ->]|(per_track & Hper & _)]; [done|].
      exfalso. clear Hne.
      induction Hper as [|t recs ts per_track Hrecs _ IH];
        [by apply Exists_nil in Hex|].
      apply Exists_cons in Hex as [Hex|Hex]; [|by apply IH].
      revert Hex. apply not_Exists_Forall_not.
      apply Forall_forall. intros hit Hhit Hfail.
      unfold kept_hits in Hrecs.
      assert (hit ∈ filter
                (λ hit, ¬ skipped (fuzz_ratio services) (track_name t)
                            (track_artist t) hit)
                (take 10 (ytmusic_search services
                            (track_name t +:+ " " +:+ track_artist t))))
        as Hkept.
      { apply list_elem_of_filter. split; [|done].
        destruct Hfail as [Hartists|[_ ->]]; [|by intros []].
        unfold skipped, result_artist. rewrite Hartists. by intros []. }
      apply list_elem_of_lookup in Hkept as [i Hi].
      destruct (Forall2_lookup_l _ _ _ _ _ Hrecs Hi)
        as (rec & _ & _ & Hartist & Hthumb & _).
      unfold result_artist, result_thumbnail in *.
      destruct Hfail as [Hartists|[Hthumbs _]].
      * by rewrite Hartists in Hartist.
      * by rewrite Hthumbs in Hthumb.
    + intros all -> Hex. simpl.
      assert (filter_and_get_top_recommendations (track :: tracks) all
              = Raise ValueError) as ->; [|done].
      by apply filter_Raise_iff.
Qed.

Lemma callback_errors_witness :
  callback (sample_services sample_page) (Some sample_link) (Some "AQBx7")
  = render_error "Error: 'id'".
Proof.
  apply (callback_errors (sample_services sample_page)
           (Some sample_link) (Some "AQBx7") sample_link "AQBx7" "BQD4kXo"
           "37i9dQZF1DXcBWIGoYBM5M" (mkToken (Some "BQD4kXo")));
    [reflexivity..|].
  by_evaluation.
Defined.

(** [callback] always shows the page with an error or with recommendations,
    never with both or with neither, and never redirects.  Without a link in
    the session, without a code, or without a token it shows its error
    whatever the services are. *)
Theorem callback_answers (services : Services)
    (session_link code : option string) :
  ((∃ message, callback services session_link code = render_error message)
   ∨ (∃ top, callback services session_link code
             = RenderIndex None (Some top)))
  ∧ (truthy session_link = None →
     callback services session_link code
     = render_error "Playlist link not found in session.")
  ∧ (is_Some (truthy session_link) → truthy code = None →
     callback services session_link code
     = render_error "Authorization code not found.")
  ∧ (is_Some (truthy session_link) →
     ∀ c, truthy code = Some c → get_access_token services c = None →
          callback services session_link code
          = render_error "Could not retrieve access token.").
Proof.
  unfold callback, callback_try, handle_exception. split_and!.
  - destruct (truthy session_link) as [link|]; [|left; by eexists].
    destruct (truthy code) as [c|]; [|left; by eexists].
    destruct (get_access_token services c) as [token|]; [|left; by eexists].
    destruct (access_token token) as [tok|]; [|left; by eexists]. simpl.
    destruct (playlist_id_of_link link) as [id|]; [|left; by eexists]. simpl.
    destruct (get_spotify_tracks id (spotify_client services tok))
      as [[|track tracks]|]; [left; by eexists| |left; by eexists].
    simpl.
    destruct (gather_recommendations services (track :: tracks)) as [all|];
      [|left; by eexists]. simpl.
    destruct (filter_and_get_top_recommendations (track :: tracks) all)
      as [top|]; [|left; by eexists].
    right. by eexists.
  - by intros ->.
  - intros [link ->] ->. done.
  - intros [link ->] c -> ->. done.
Qed.

Lemma callback_answers_witness :
  callback (sample_services sample_page) (Some sample_link) (Some "")
  = render_error "Authorization code not found.".
Proof.
  apply (callback_answers (sample_services sample_page)
           (Some sample_link) (Some "")).
  - by eexists.
  - reflexivity.
Defined.

(** [index] redirects exactly for a POST with a link that is not empty when
    the authorization URL is given, and then to that URL.  Such a POST stores
    the link in the session, also when the authorization URL raises, and
    [callback] then finds the link.  Every other request shows the plain
    page and leaves the session as it is. *)
Theorem index_stores_link (services : Services) (method : string)
    (form_link session_link : option string) :
  (∀ url, (index services method form_link session_link).1 = Redirect url
          ↔ method = "POST" ∧ is_Some (truthy form_link)
            ∧ get_authorize_url services = Ok url)
  ∧ (∀ link, method = "POST" → truthy form_link = Some link →
       (index services method form_link session_link).2 = Some link
       ∧ ∀ code,
           callback services
             (index services method form_link session_link).2 code
           ≠ render_error "Playlist link not found in session.")
  ∧ (method ≠ "POST" ∨ truthy form_link = None →
     index services method form_link session_link
     = (RenderIndex None None, session_link)).
Proof.
  unfold index. split_and!.
  - intros url. destruct (decide (method = "POST")) as [->|Hne].
    + destruct (truthy form_link) as [link|]; simpl.
      * destruct (get_authorize_url services) as [auth_url|e]; simpl.
        -- split; [intros [= ->]|intros (_ & _ & [= ->])]; eauto.
        -- split; [done|]. by intros (_ & _ & ?).
      * split; [done|]. by intros (_ & [? ?] & _).
    + simpl. split; [done|]. by intros [? _].
  - intros link -> Hlink. rewrite Hlink. simpl. split; [done|].
    intros code.
    apply truthy_Some in Hlink as [_ Hlink].
    unfold callback, callback_try, handle_exception, render_error.
    assert (truthy (Some link) = Some link) as -> by (by destruct link).
    destruct (truthy code) as [c|]; [|done].
    destruct (get_access_token services c) as [token|]; [|done].
    destruct (access_token token) as [tok|]; [|by cbv]. simpl.
    destruct (playlist_id_of_link link) as [id|]; [|by cbv]. simpl.
    destruct (get_spotify_tracks id (spotify_client services tok))
      as [[|track tracks]|]; [done| |by cbv].
    simpl.
    destruct (gather_recommendations services (track :: tracks)) as [all|];
      [|by cbv]. simpl.
    by destruct (filter_and_get_top_recommendations (track :: tracks) all);
      cbv.
  - intros [Hne|Hnone].
    + by rewrite decide_False.
    + rewrite Hnone. by destruct (decide (method = "POST")).
Qed.

Lemma index_stores_link_witness :
  (index (sample_services sample_page) "POST" (Some sample_link) None).2
  = Some sample_link.
Proof.
  apply (index_stores_link (sample_services sample_page) "POST"
           (Some sample_link) None); reflexivity.
Defined.

(** The counts do not depend on the order of the candidates: two orders of
    one list of candidates give every key the same count and give counters
    with the same entries; only the order of the entries can differ. *)
Theorem counter_order_independent (tracks : list Track)
    (recs recs' : list Recommendation) :
  recs ≡ₚ recs' →
  (∀ k, occurrence_count tracks recs k = occurrence_count tracks recs' k)
  ∧ recommendation_count (playlist_songs tracks) recs
    ≡ₚ recommendation_count (playlist_songs tracks) recs'.
Proof.
  intros Hperm.
  assert (counted_keys tracks recs ≡ₚ counted_keys tracks recs') as Hkeys.
  { unfold counted_keys. by rewrite Hperm. }
  assert (∀ k, occurrence_count tracks recs k = occurrence_count tracks recs' k)
    as Hcount.
  { intros k. unfold occurrence_count, occurrences. by rewrite Hkeys. }
  split; [done|].
  apply NoDup_Permutation.
  - eapply NoDup_fmap_1, (recommendation_count_inv (playlist_songs tracks) recs).
  - eapply NoDup_fmap_1, (recommendation_count_inv (playlist_songs tracks) recs').
  - assert (∀ rs rs',
              counted_keys tracks rs ≡ₚ counted_keys tracks rs' →
              (∀ k, occurrence_count tracks rs k = occurrence_count tracks rs' k) →
              ∀ item, item ∈ recommendation_count (playlist_songs tracks) rs →
                      item ∈ recommendation_count (playlist_songs tracks) rs')
      as Hincl.
    { intros rs rs' Hks Hocc [k n] Hin.
      assert (k ∈ counted_keys tracks rs) as Hk.
      { apply counter_keys_counted, list_elem_of_fmap. by exists (k, n). }
      apply elem_of_counter in Hin as (_ & _ & ->).
      rewrite Hks in Hk. rewrite Hocc. by apply counted_key_in_counter. }
    intros item. split; [by apply Hincl|]. by apply Hincl.
Qed.

Lemma counter_order_independent_witness :
  recommendation_count (playlist_songs [sample_track]) counts_3_5_1
  ≡ₚ recommendation_count (playlist_songs [sample_track])
       (reverse counts_3_5_1).
Proof.
  apply (counter_order_independent [sample_track] counts_3_5_1
           (reverse counts_3_5_1)).
  by_evaluation.
Defined.
